(** * pypprof: conversion of yappi call-graph statistics to pprof samples

    A shallow embedding of [YappiProfiler._convert_to_pprof]
    (src/pypprof/yappi_profiler.py) and the properties of its two
    aggregation passes.

    - Python floats are IEEE 754 binary64 values, modelled with the
      executable operations of [SpecFloat] at precision 53.
    - Python exceptions ([int] of an infinity or a NaN) are modelled by an
      error monad.
    - The two [defaultdict]s are finite maps ([gmap]); reading a missing
      key of a [defaultdict] through indexing yields the default and
      stores it, reading through [.get(key, 0)] does not store. *)

From Stdlib Require Import ZArith Floats.SpecFloat.
From stdpp Require Import gmap strings list fin_maps.

Local Open Scope Z_scope.

(** ** Python exceptions *)

Inductive PyExc := OverflowError | ValueError.

Inductive result (A : Type) :=
  | Ok (a : A)
  | Raise (e : PyExc).
Arguments Ok {A} a.
Arguments Raise {A} e.

#[global] Instance result_ret : MRet result := @Ok.
#[global] Instance result_bind : MBind result := λ A B f m,
  match m with
  | Ok a => f a
  | Raise e => Raise e
  end.

(** [for x in l: body] over an explicit state; an exception raised by the
    body leaves the loop. *)
Fixpoint for_each {A St : Type} (body : St → A → result St)
    (l : list A) (st : St) : result St :=
  match l with
  | [] => Ok st
  | x :: l' => st' ← body st x; for_each body l' st'
  end.

(** ** Python floats *)

Module PyFloat.
Definition float := spec_float.
Definition prec : Z := 53.
Definition emax : Z := 1024.

Definition sub : float → float → float := SFsub prec emax.
Definition mul : float → float → float := SFmul prec emax.

(** The literal [1e9], that is 1000000000 * 2^23 * 2^-23. *)
Definition f1e9 : float := S754_finite false 8388608000000000 (-23).

(** [int(x)]: truncation towards zero; [OverflowError] on an infinity,
    [ValueError] on a NaN. *)
Definition to_int (x : float) : result Z :=
  match x with
  | S754_zero _ => Ok 0
  | S754_infinity _ => Raise OverflowError
  | S754_nan => Raise ValueError
  | S754_finite s m e =>
      let v := Z.shiftl (Z.pos m) e in
      Ok (if s then - v else v)
  end.
End PyFloat.

Abbreviation float := PyFloat.float.

(** ** Data model *)

(** The attributes the converter reads from a statistics record; yappi's
    [YFuncStat] and [YChildFuncStat] both provide them. *)
Class StatLike (A : Type) := {
  name : A → string;
  module : A → string;
  lineno : A → Z;
  ttot : A → float;
  tsub : A → float;
  ncall : A → Z
}.

Record YChildFuncStat := {
  child_name : string;
  child_module : string;
  child_lineno : Z;
  child_ttot : float;
  child_tsub : float;
  child_ncall : Z
}.

(** [children] is [None] when the record has no such attribute. *)
Record YFuncStat := {
  func_name : string;
  func_module : string;
  func_lineno : Z;
  func_ttot : float;
  func_tsub : float;
  func_ncall : Z;
  children : option (list YChildFuncStat)
}.

#[global] Instance child_stat_like : StatLike YChildFuncStat := {|
  name := child_name; module := child_module; lineno := child_lineno;
  ttot := child_ttot; tsub := child_tsub; ncall := child_ncall
|}.

#[global] Instance func_stat_like : StatLike YFuncStat := {|
  name := func_name; module := func_module; lineno := func_lineno;
  ttot := func_ttot; tsub := func_tsub; ncall := func_ncall
|}.

(** pprof frame: (name, filename, start_line, line_number). *)
Abbreviation Frame := (string * string * Z * Z)%type.
(** Leaf frame at position 0. *)
Abbreviation Trace := (list Frame).
(** Key of [covered_self_time]: (name, filename, lineno). *)
Abbreviation Key := (string * string * Z)%type.
(** [samples]: trace -> [count, value]. *)
Abbreviation Samples := (gmap Trace (Z * Z)).
Abbreviation Coverage := (gmap Key Z).

Record YappiProfiler := { _clock_type : string }.

(** ** The converter *)

Section Converter.
Context {A : Type} `{StatLike A}.

Definition make_frame (func_stat : A) : Frame :=
  (name func_stat, module func_stat, lineno func_stat, lineno func_stat).

Definition stat_key (func_stat : A) : Key :=
  (name func_stat, module func_stat, lineno func_stat).

(** [int((s.ttot - s.tsub) * 1e9)] *)
Definition self_time_ns (s : A) : result Z :=
  PyFloat.to_int (PyFloat.mul (PyFloat.sub (ttot s) (tsub s)) PyFloat.f1e9).
End Converter.

(** [entry = samples[trace]; entry[0] += count; entry[1] += value] *)
Definition add_sample (trace : Trace) (count value : Z) (samples : Samples)
    : Samples :=
  let entry := default (0, 0) (samples !! trace) in
  <[trace := (entry.1 + count, entry.2 + value)]> samples.

(** [covered_self_time[key] += ns] *)
Definition add_covered (key : Key) (ns : Z) (covered : Coverage) : Coverage :=
  <[key := default 0 (covered !! key) + ns]> covered.

(** Body of the inner loop of the first pass (source lines 51-74). *)
Definition edge_body (caller_frame : Frame) (st : Samples * Coverage)
    (child_stat : YChildFuncStat) : result (Samples * Coverage) :=
  let '(samples, covered_self_time) := st in
  let callee_frame := make_frame child_stat in
  self_time_ns ← self_time_ns child_stat;
  let count := ncall child_stat in
  let self_time_ns := if self_time_ns <? 0 then 0 else self_time_ns in
  let trace := [callee_frame; caller_frame] in
  let samples := add_sample trace count self_time_ns samples in
  let callee_key := stat_key child_stat in
  Ok (samples, add_covered callee_key self_time_ns covered_self_time).

(** Body of the outer loop of the first pass (source lines 45-74). *)
Definition caller_body (st : Samples * Coverage) (func_stat : YFuncStat)
    : result (Samples * Coverage) :=
  let caller_frame := make_frame func_stat in
  match children func_stat with
  | None => Ok st
  | Some cs => for_each (edge_body caller_frame) cs st
  end.

Definition first_pass (stats : list YFuncStat) (st : Samples * Coverage)
    : result (Samples * Coverage) :=
  for_each caller_body stats st.

(** Body of the loop of the second pass (source lines 78-107). *)
Definition root_body (covered_self_time : Coverage) (samples : Samples)
    (func_stat : YFuncStat) : result Samples :=
  let frame := make_frame func_stat in
  let key := stat_key func_stat in
  total_self_time_ns ← self_time_ns func_stat;
  let total_self_time_ns :=
    if total_self_time_ns <? 0 then 0 else total_self_time_ns in
  let covered_ns := default 0 (covered_self_time !! key) in
  let remainder_ns := total_self_time_ns - covered_ns in
  if (0 <? remainder_ns) || ((covered_ns =? 0) && (0 <? ncall func_stat))
  then
    let trace := [frame] in
    let count := 0 in
    let count := if covered_ns =? 0 then ncall func_stat else count in
    Ok (add_sample trace count remainder_ns samples)
  else Ok samples.

Definition second_pass (covered_self_time : Coverage)
    (stats : list YFuncStat) (samples : Samples) : result Samples :=
  for_each (root_body covered_self_time) stats samples.

(** Both passes, from the empty [defaultdict]s. *)
Definition sample_table (stats : list YFuncStat) : result Samples :=
  '(samples, covered_self_time) ← first_pass stats (∅, ∅);
  second_pass covered_self_time stats samples.

(** The profile builder of [pypprof.builder] is outside this file's
    source: it is a parameter of the converter. *)
Class Builder (B Out : Type) := {
  new_builder : B;
  populate_profile : B → Samples → string → string → Z → Z → B;
  emit : B → Out
}.

Definition _convert_to_pprof {B Out} `{Builder B Out}
    (self : YappiProfiler) (stats : list YFuncStat) (duration_ns : Z)
    : result Out :=
  let profile_builder := new_builder in
  final_samples ← sample_table stats;
  let profile_type :=
    if String.eqb (_clock_type self) "cpu" then "CPU" else "WALL" in
  let unit := "nanoseconds" in
  let profile_builder :=
    populate_profile profile_builder final_samples profile_type
      "count" 1 duration_ns in
  Ok (emit profile_builder).

(** A builder that records the arguments of [populate_profile], to
    observe what the converter hands over. *)
Record PopulateCall := {
  call_samples : Samples;
  call_sample_type : string;
  call_sample_unit : string;
  call_period : Z;
  call_duration_ns : Z
}.

#[global] Instance recorder : Builder (option PopulateCall) (option PopulateCall) := {|
  new_builder := None;
  populate_profile _ samples sample_type sample_unit period duration_ns :=
    Some {| call_samples := samples; call_sample_type := sample_type;
            call_sample_unit := sample_unit; call_period := period;
            call_duration_ns := duration_ns |};
  emit b := b
|}.

(** ** Quantities of the specification *)

(** Sum of [f] over a list. *)
Definition total {X : Type} (f : X → Z) (l : list X) : Z :=
  foldr (λ x acc, f x + acc) 0 l.

(** The conversion of a record's self time does not raise. *)
Definition Finite {A} `{StatLike A} (s : A) : Prop :=
  ∃ x, self_time_ns s = Ok x.

(** max(0, nanoseconds(totalTime − subTime)) *)
Definition self_ns {A} `{StatLike A} (s : A) : Z :=
  match self_time_ns s with
  | Ok x => Z.max 0 x
  | Raise _ => 0
  end.

(** A missing [children] collection is an empty one. *)
Definition out_edges (F : YFuncStat) : list YChildFuncStat :=
  default [] (children F).

(** All caller/callee pairs of the input, in traversal order. *)
Definition edges (stats : list YFuncStat)
    : list (YFuncStat * YChildFuncStat) :=
  F ← stats; pair F <$> out_edges F.

(** Every conversion of the two passes succeeds. *)
Definition Convertible (stats : list YFuncStat) : Prop :=
  Forall (λ F, Finite F ∧ Forall Finite (out_edges F)) stats.

(** Invocation counts are counts. *)
Definition CountsNonNeg (stats : list YFuncStat) : Prop :=
  Forall (λ F, 0 ≤ ncall F ∧ Forall (λ E, 0 ≤ ncall E) (out_edges F)) stats.

(** The edges whose callee has identity [k]. *)
Definition edges_into (k : Key) (stats : list YFuncStat)
    : list (YFuncStat * YChildFuncStat) :=
  filter (λ e, stat_key e.2 = k) (edges stats).

(** The edges recorded under the two-frame trace [t]. *)
Definition edges_of_trace (t : Trace) (stats : list YFuncStat)
    : list (YFuncStat * YChildFuncStat) :=
  filter (λ e, [make_frame e.2; make_frame e.1] = t) (edges stats).

(** Self time of [k] attributed through edges. *)
Definition covered_total (k : Key) (stats : list YFuncStat) : Z :=
  total (λ e, self_ns e.2) (edges_into k stats).

(** The decision of the root pass for a record with clamped self time
    [total_self_ns], coverage [covered_ns] and [calls] invocations. *)
Definition root_emits (total_self_ns covered_ns calls : Z) : Prop :=
  total_self_ns - covered_ns > 0 ∨ (covered_ns = 0 ∧ calls > 0).

#[global] Instance root_emits_dec t c n : Decision (root_emits t c n).
Proof. unfold root_emits. apply _. Defined.

(** Weighted sum over the entries of a sample table. *)
Definition table_total (φ : Trace → Z * Z → Z) (samples : Samples) : Z :=
  map_fold (λ t e acc, φ t e + acc) 0 samples.

(** [t] is a two-frame trace whose leaf frame is [fr]. *)
Definition edge_trace_of (fr : Frame) (t : Trace) : Prop :=
  match t with
  | [leaf; _] => leaf = fr
  | _ => False
  end.

#[global] Instance edge_trace_of_dec fr t : Decision (edge_trace_of fr t).
Proof. destruct t as [|? [|? [|? ?]]]; simpl; apply _. Defined.

(** Value, respectively count, of an entry when it is an edge sample with
    leaf [fr]. *)
Definition leaf_value (fr : Frame) (t : Trace) (e : Z * Z) : Z :=
  if decide (edge_trace_of fr t) then e.2 else 0.
Definition leaf_count (fr : Frame) (t : Trace) (e : Z * Z) : Z :=
  if decide (edge_trace_of fr t) then e.1 else 0.

(** Sum of the values of the two-frame samples whose leaf frame is [fr]. *)
Definition edge_value_into (fr : Frame) (samples : Samples) : Z :=
  table_total (leaf_value fr) samples.
Definition edge_count_into (fr : Frame) (samples : Samples) : Z :=
  table_total (leaf_count fr) samples.

(** Value of the one-frame sample of [fr]; nothing when there is none. *)
Definition root_value (fr : Frame) (samples : Samples) : Z :=
  match samples !! [fr] with
  | Some (_, value) => value
  | None => 0
  end.

(** Sum of the counts of all samples. *)
Definition count_total (samples : Samples) : Z :=
  table_total (λ _ e, e.1) samples.

(** Conservation of the self time of [F] in the table [samples]. *)
Definition conserved (samples : Samples) (F : YFuncStat) : Prop :=
  ∃ x, self_time_ns F = Ok x ∧
    edge_value_into (make_frame F) samples
      + root_value (make_frame F) samples = Z.max 0 x.

(** ** The passes as accumulations of contributions *)

Definition accumulate (cs : list (Trace * (Z * Z))) (samples : Samples)
    : Samples :=
  foldl (λ acc c, add_sample c.1 c.2.1 c.2.2 acc) samples cs.

Definition accumulate_covered (cs : list (Key * Z)) (covered : Coverage)
    : Coverage :=
  foldl (λ acc c, add_covered c.1 c.2 acc) covered cs.

Definition edge_contrib (e : YFuncStat * YChildFuncStat)
    : Trace * (Z * Z) :=
  ([make_frame e.2; make_frame e.1], (ncall e.2, self_ns e.2)).

Definition cover_contrib (e : YFuncStat * YChildFuncStat) : Key * Z :=
  (stat_key e.2, self_ns e.2).

Definition covered_of (covered : Coverage) (F : YFuncStat) : Z :=
  default 0 (covered !! stat_key F).

Definition root_count (covered_ns : Z) (F : YFuncStat) : Z :=
  if decide (covered_ns = 0) then ncall F else 0.

Definition root_contrib (covered : Coverage) (F : YFuncStat)
    : option (Trace * (Z * Z)) :=
  let covered_ns := covered_of covered F in
  if decide (root_emits (self_ns F) covered_ns (ncall F))
  then Some ([make_frame F],
             (root_count covered_ns F, self_ns F - covered_ns))
  else None.

(** The coverage map the first pass builds from the empty one. *)
Definition coverage_after (stats : list YFuncStat) : Coverage :=
  accumulate_covered (cover_contrib <$> edges stats) ∅.

(** All contributions of a run, in the order they are made. *)
Definition contributions (stats : list YFuncStat)
    : list (Trace * (Z * Z)) :=
  (edge_contrib <$> edges stats)
    ++ omap (root_contrib (coverage_after stats)) stats.

(** [φ] distributes over the addition of entries. *)
Definition Additive (φ : Trace → Z * Z → Z) : Prop :=
  ∀ t c1 v1 c2 v2, φ t (c1 + c2, v1 + v2) = φ t (c1, v1) + φ t (c2, v2).

(** The record [F] with its [children] attribute replaced. *)
Definition set_children (cs : option (list YChildFuncStat))
    (F : YFuncStat) : YFuncStat :=
  {| func_name := func_name F; func_module := func_module F;
     func_lineno := func_lineno F; func_ttot := func_ttot F;
     func_tsub := func_tsub F; func_ncall := func_ncall F;
     children := cs |}.

(** [P] holds of the table the converter returns. *)
Definition returns (r : result Samples) (P : Samples → Prop) : Prop :=
  match r with
  | Ok samples => P samples
  | Raise _ => False
  end.

(** Executable forms of [Finite] and [Convertible]. *)
Definition finiteb {A} `{StatLike A} (s : A) : bool :=
  match self_time_ns s with
  | Ok _ => true
  | Raise _ => false
  end.

Definition convertibleb (stats : list YFuncStat) : bool :=
  forallb (λ F, finiteb F && forallb finiteb (out_edges F)) stats.

(** ** Further quantities *)

(** The float-to-integer conversions of a run, in the order the two passes
    make them: one per edge, then one per record. *)
Definition conversions (stats : list YFuncStat) : list (result Z) :=
  ((λ e, self_time_ns e.2) <$> edges stats) ++ (self_time_ns <$> stats).

(** The exception of the first conversion that raises. *)
Fixpoint first_raise {A} (l : list (result A)) : option PyExc :=
  match l with
  | [] => None
  | Ok _ :: l' => first_raise l'
  | Raise e :: _ => Some e
  end.

(** The outcome of a run agrees with the first raise of a list. *)
Definition agrees {A B} (r : result A) (l : list (result B)) : Prop :=
  match r with
  | Ok _ => first_raise l = None
  | Raise e => first_raise l = Some e
  end.

(** Sum of the values of all samples. *)
Definition value_total (samples : Samples) : Z :=
  table_total (λ _ e, e.2) samples.

(** The sign bit of a float that is not a NaN. *)
Definition sign_bit (x : float) : option bool :=
  match x with
  | S754_zero s | S754_infinity s | S754_finite s _ _ => Some s
  | S754_nan => None
  end.

(** ** Concrete inputs *)

Module Scenario.
Definition fzero : float := S754_zero false.
(** The floats [0.1] and [0.7]. *)
Definition f0_1 : float := S754_finite false 7205759403792794 (-56).
Definition f0_7 : float := S754_finite false 6305039478318694 (-53).
(** [0.1 + 0.7], the float [0.7999999999999999]. *)
Definition f0_1_plus_0_7 : float :=
  SFadd PyFloat.prec PyFloat.emax f0_1 f0_7.

Definition func (n : string) (line : Z) (tt ts : float) (calls : Z)
    (cs : option (list YChildFuncStat)) : YFuncStat :=
  {| func_name := n; func_module := "app.py"; func_lineno := line;
     func_ttot := tt; func_tsub := ts; func_ncall := calls;
     children := cs |}.

Definition child (n : string) (line : Z) (tt ts : float) (calls : Z)
    : YChildFuncStat :=
  {| child_name := n; child_module := "app.py"; child_lineno := line;
     child_ttot := tt; child_tsub := ts; child_ncall := calls |}.

(** Scenario A: a single function [main] without children. *)
Definition main_only (md : string) (line : Z) (has_children : bool)
    : YFuncStat :=
  {| func_name := "main"; func_module := md; func_lineno := line;
     func_ttot := fzero; func_tsub := fzero; func_ncall := 1;
     children := if has_children then Some [] else None |}.

(** [B] is called once by [A] for 0.1 s and once by [C] for 0.7 s; the
    record of [B] carries the float sum of the two as its total. *)
Definition B_two_callers : YFuncStat :=
  func "B" 30 f0_1_plus_0_7 fzero 2 (Some []).
Definition two_callers : list YFuncStat :=
  [ func "A" 10 f0_1 f0_1 1 (Some [child "B" 30 f0_1 fzero 1]);
    func "C" 20 f0_7 f0_7 1 (Some [child "B" 30 f0_7 fzero 1]);
    B_two_callers ].

(** The floats [0.005] and [0.012]. *)
Definition f0_005 : float := S754_finite false 5764607523034235 (-60).
Definition f0_012 : float := S754_finite false 6917529027641082 (-59).

(** Scenario D: [B] is called by [A] and by [C], 5 ms each, and has
    12 ms of self time in total. *)
Definition B_remainder : YFuncStat :=
  func "B" 30 f0_012 fzero 3 (Some []).
Definition B_from_A : YChildFuncStat := child "B" 30 f0_005 fzero 1.
Definition A_remainder : YFuncStat :=
  func "A" 10 f0_005 f0_005 1 (Some [B_from_A]).
Definition remainder_call : list YFuncStat :=
  [ A_remainder;
    func "C" 20 f0_005 f0_005 1 (Some [child "B" 30 f0_005 fzero 1]);
    B_remainder ].

(** [A] calls [B] once; every measured time is zero. *)
Definition B_zero_time : YFuncStat := func "B" 30 fzero fzero 1 None.
Definition A_zero_time : YFuncStat :=
  func "A" 10 fzero fzero 1 (Some [child "B" 30 fzero fzero 1]).
Definition zero_time_call : list YFuncStat :=
  [ A_zero_time; B_zero_time ].
End Scenario.

(** ** [profile]: the calls around the timed window *)

(** The conversion of an [int] to a [float], as in [duration_ns / 1e9]:
    rounding to nearest even, [OverflowError] when the integer is too
    large. *)
Definition float_of_int (n : Z) : result float :=
  match binary_normalize PyFloat.prec PyFloat.emax n 0 false with
  | S754_infinity _ => Raise OverflowError
  | x => Ok x
  end.

Definition float_div : float → float → float :=
  SFdiv PyFloat.prec PyFloat.emax.

(** The calls [profile] makes outside this file. *)
Inductive Call :=
  | lock_acquire
  | lock_release
  | yappi_stop
  | yappi_clear_stats
  | yappi_set_clock_type (clock_type : string)
  | yappi_start
  | time_sleep (seconds : float)
  | yappi_get_func_stats.

(** An entry of the log of a run: the call, and whether it returned
    normally. *)
Record Event := { ev_call : Call; ev_ok : bool }.

Section Profile.
Context {W E B Out : Type} `{Builder B Out}.

(** The outside world: what each call does to it and whether it raises,
    what [yappi.get_func_stats()] returns, and the exceptions of this
    file's own code among all exceptions. *)
Variable extern : Call → W → W * option E.
Variable get_func_stats : W → W * (E + list YFuncStat).
Variable py_raise : PyExc → E.

(** Computations over the world and the log, which raise or return. *)
Definition Run (A : Type) : Type :=
  W * list Event → (W * list Event) * (E + A).

#[local] Instance run_ret : MRet Run := λ A a st, (st, inr a).
#[local] Instance run_bind : MBind Run := λ A A' f m st,
  let '(st', r) := m st in
  match r with
  | inl e => (st', inl e)
  | inr a => f a st'
  end.

Definition call (c : Call) : Run () := λ '(w, log),
  let '(w', r) := extern c w in
  match r with
  | Some e => ((w', log ++ [{| ev_call := c; ev_ok := false |}]), inl e)
  | None => ((w', log ++ [{| ev_call := c; ev_ok := true |}]), inr ())
  end.

Definition call_get_func_stats : Run (list YFuncStat) := λ '(w, log),
  let '(w', r) := get_func_stats w in
  match r with
  | inl e =>
      ((w', log ++ [{| ev_call := yappi_get_func_stats; ev_ok := false |}]),
       inl e)
  | inr stats =>
      ((w', log ++ [{| ev_call := yappi_get_func_stats; ev_ok := true |}]),
       inr stats)
  end.

(** Code of this file: it touches neither the world nor the log. *)
Definition lift {A} (r : result A) : Run A := λ st,
  match r with
  | Ok a => (st, inr a)
  | Raise e => (st, inl (py_raise e))
  end.

(** [try: body finally: fin]: [fin] runs in every case; its exception
    wins, otherwise the exception of [body] is raised again. The value
    is the one [fin] binds. *)
Definition try_finally {A A'} (body : Run A) (fin : Run A') : Run A' :=
  λ st,
  let '(st1, r) := body st in
  let '(st2, rf) := fin st1 in
  match rf with
  | inl e => (st2, inl e)
  | inr b =>
      match r with
      | inl e => (st2, inl e)
      | inr _ => (st2, inr b)
      end
  end.

(** [with _lock: body]: the lock is released in every case. *)
Definition with_lock {A} (body : Run A) : Run A := λ '(w, log),
  let '((w', log'), r) :=
    body (w, log ++ [{| ev_call := lock_acquire; ev_ok := true |}]) in
  ((w', log' ++ [{| ev_call := lock_release; ev_ok := true |}]), r).

Definition profile (self : YappiProfiler) (duration_ns : Z) : Run Out :=
  with_lock (
    call yappi_stop;;
    call yappi_clear_stats;;
    call (yappi_set_clock_type (_clock_type self));;
    call yappi_start;;
    stats ← try_finally
      (seconds ← lift (x ← float_of_int duration_ns;
                       Ok (float_div x PyFloat.f1e9));
       call (time_sleep seconds))
      (call yappi_stop;;
       call_get_func_stats);
    lift (_convert_to_pprof self stats duration_ns)).
End Profile.

(** The log of a successful run of [profile] that sleeps [seconds]. *)
Definition full_log (clock_type : string) (seconds : float) : list Event :=
  (λ c, {| ev_call := c; ev_ok := true |}) <$>
  [ lock_acquire; yappi_stop; yappi_clear_stats;
    yappi_set_clock_type clock_type; yappi_start; time_sleep seconds;
    yappi_stop; yappi_get_func_stats; lock_release ].

(** The calls of a log are bracketed by the lock: it is acquired first,
    released last, and not touched in between. *)
Definition is_lock_call (c : Call) : bool :=
  match c with
  | lock_acquire | lock_release => true
  | _ => false
  end.

Definition well_locked (l : list Event) : bool :=
  match l with
  | {| ev_call := lock_acquire; ev_ok := true |} :: rest =>
      match reverse rest with
      | {| ev_call := lock_release; ev_ok := true |} :: middle =>
          forallb (λ ev, negb (is_lock_call (ev_call ev))) middle
      | _ => false
      end
  | _ => false
  end.

Definition is_stop (ev : Event) : bool :=
  match ev_call ev with
  | yappi_stop => true
  | _ => false
  end.

(** Every [yappi.start()] that returned is followed by a call of
    [yappi.stop()]. *)
Fixpoint stopped_after_start (l : list Event) : bool :=
  match l with
  | [] => true
  | {| ev_call := yappi_start; ev_ok := true |} :: l' =>
      existsb is_stop l' && stopped_after_start l'
  | _ :: l' => stopped_after_start l'
  end.

(** ** The error monad and the loops *)

Lemma bind_Ok {A B} (m : result A) (f : A → result B) (b : B) :
  m ≫= f = Ok b ↔ ∃ a, m = Ok a ∧ f a = Ok b.
Proof.
  destruct m as [a|e]; simpl; split.
  - intros Hf. by exists a.
  - by intros (a' & [= <-] & Hf).
  - intros [=].
  - by intros (a' & [=] & _).
Qed.

Lemma ret_bind {A B} (a : A) (f : A → result B) : Ok a ≫= f = f a.
Proof. reflexivity. Qed.

Lemma for_each_cons {A St} (body : St → A → result St) x l st :
  for_each body (x :: l) st = body st x ≫= for_each body l.
Proof. reflexivity. Qed.

Lemma for_each_app {A St} (body : St → A → result St) l1 l2 st :
  for_each body (l1 ++ l2) st =
  for_each body l1 st ≫= for_each body l2.
Proof.
  revert st. induction l1 as [|x l1 IH]; intros st; simpl; [done|].
  destruct (body st x) as [st'|e]; simpl; [apply IH | done].
Qed.

(** ** Sums over lists *)

Lemma total_cons {X} (f : X → Z) x l : total f (x :: l) = f x + total f l.
Proof. reflexivity. Qed.

Lemma total_app {X} (f : X → Z) l1 l2 :
  total f (l1 ++ l2) = total f l1 + total f l2.
Proof. induction l1 as [|x l1 IH]; simpl; [done | rewrite IH; lia]. Qed.

Lemma total_nonneg {X} (f : X → Z) l :
  Forall (λ x, 0 ≤ f x) l → 0 ≤ total f l.
Proof. induction 1; simpl; lia. Qed.

Lemma total_zero {X} (f : X → Z) l :
  Forall (λ x, f x = 0) l → total f l = 0.
Proof. induction 1; simpl; lia. Qed.

Lemma total_fmap {X Y} (g : X → Y) (f : Y → Z) l :
  total f (g <$> l) = total (f ∘ g) l.
Proof.
  induction l as [|x l IH]; [done|].
  by rewrite fmap_cons, !total_cons, IH.
Qed.

Lemma filter_none {X} (P : X → Prop) `{∀ x, Decision (P x)} l :
  (∀ x, x ∈ l → ¬ P x) → filter P l = [].
Proof.
  induction l as [|y l IH]; intros Hl; [done|].
  rewrite filter_cons_False by (apply Hl; left).
  apply IH. intros x Hx. apply Hl. by right.
Qed.

(** With pairwise distinct keys, only [x] itself has the key of [x]. *)
Lemma filter_key_unique {X K} `{EqDecision K} (key : X → K) l x :
  NoDup (key <$> l) → x ∈ l →
  filter (λ y, key y = key x) l = [x].
Proof.
  induction l as [|y l IH]; intros Hnd Hx.
  - by apply elem_of_nil in Hx.
  - rewrite fmap_cons in Hnd. apply NoDup_cons in Hnd as [Hy Hnd].
    apply elem_of_cons in Hx as [->|Hx].
    + rewrite filter_cons_True by done. f_equal.
      apply filter_none. intros z Hz Hkey.
      apply Hy. rewrite <- Hkey. by apply list_elem_of_fmap_2.
    + rewrite filter_cons_False; [by apply IH|].
      intros Hkey. apply Hy. rewrite Hkey. by apply list_elem_of_fmap_2.
Qed.

Lemma self_ns_nonneg {A} `{StatLike A} (s : A) : 0 ≤ self_ns s.
Proof. unfold self_ns. destruct (self_time_ns s); lia. Qed.

Lemma self_ns_Ok {A} `{StatLike A} (s : A) x :
  self_time_ns s = Ok x → self_ns s = Z.max 0 x.
Proof. unfold self_ns. by intros ->. Qed.

(** The clamp of the source is [Z.max 0]. *)
Lemma clamp_max x : (if x <? 0 then 0 else x) = Z.max 0 x.
Proof. destruct (Z.ltb_spec x 0); lia. Qed.

Lemma make_frame_key {A B} `{StatLike A} `{StatLike B} (a : A) (b : B) :
  make_frame a = make_frame b ↔ stat_key a = stat_key b.
Proof. unfold make_frame, stat_key. split; intros [=]; congruence. Qed.

Lemma total_filter_fmap {X Y} (g : X → Y) (h : Y → Z) (P : Y → Prop)
    `{∀ y, Decision (P y)} l :
  total h (filter P (g <$> l)) = total (h ∘ g) (filter (P ∘ g) l).
Proof.
  induction l as [|x l IH]; [done|].
  rewrite fmap_cons, !filter_cons. simpl.
  destruct (decide (P (g x))); by rewrite ?total_cons, IH.
Qed.

(** ** Accumulation into the sample table *)

Lemma add_sample_lookup (t : Trace) (c v : Z) (S : Samples) (t' : Trace) :
  add_sample t c v S !! t' =
  if decide (t = t')
  then Some ((default (0, 0) (S !! t)).1 + c,
             (default (0, 0) (S !! t)).2 + v)
  else S !! t'.
Proof. unfold add_sample. by rewrite lookup_insert. Qed.

Lemma accumulate_app (cs1 cs2 : list (Trace * (Z * Z))) (S : Samples) :
  accumulate (cs1 ++ cs2) S = accumulate cs2 (accumulate cs1 S).
Proof. apply foldl_app. Qed.

(** The entry of [t] after an accumulation: what it was, plus all
    contributions to [t]. *)
Lemma accumulate_entry (cs : list (Trace * (Z * Z))) (S : Samples)
    (t : Trace) :
  default (0, 0) (accumulate cs S !! t) =
  ((default (0, 0) (S !! t)).1
     + total (λ c, c.2.1) (filter (λ c, c.1 = t) cs),
   (default (0, 0) (S !! t)).2
     + total (λ c, c.2.2) (filter (λ c, c.1 = t) cs)).
Proof.
  revert S. induction cs as [|c cs IH]; intros S.
  - simpl. destruct (default (0, 0) (S !! t)). simpl. f_equal; lia.
  - change (accumulate (c :: cs) S)
      with (accumulate cs (add_sample c.1 c.2.1 c.2.2 S)).
    rewrite IH, add_sample_lookup, filter_cons.
    destruct (decide (c.1 = t)) as [->|Hne]; [|done].
    rewrite !total_cons. cbn [default from_option id fst snd]. f_equal; lia.
Qed.

(** A trace is in the table exactly when it was there or received a
    contribution. *)
Lemma accumulate_is_Some (cs : list (Trace * (Z * Z))) (S : Samples)
    (t : Trace) :
  is_Some (accumulate cs S !! t) ↔
  is_Some (S !! t) ∨ ∃ c, c ∈ cs ∧ c.1 = t.
Proof.
  revert S. induction cs as [|c cs IH]; intros S; simpl.
  - split; [by left|]. intros [?|(c & Hc & _)]; [done|].
    by apply elem_of_nil in Hc.
  - rewrite IH, add_sample_lookup. setoid_rewrite elem_of_cons.
    destruct (decide (c.1 = t)) as [Heq|Hne].
    + split; [|by eauto]. intros _. right. exists c. by split; [left|].
    + split.
      * intros [?|(c' & ? & ?)]; [by left|]. right. exists c'. by split; [right|].
      * intros [?|(c' & [->|?] & ?)]; [by left|done|]. right. by exists c'.
Qed.

Lemma accumulate_lookup (cs : list (Trace * (Z * Z))) (t : Trace) :
  accumulate cs ∅ !! t =
  match filter (λ c, c.1 = t) cs with
  | [] => None
  | l => Some (total (λ c, c.2.1) l, total (λ c, c.2.2) l)
  end.
Proof.
  pose proof (accumulate_entry cs ∅ t) as Hentry.
  pose proof (accumulate_is_Some cs ∅ t) as Hsome.
  rewrite lookup_empty in Hentry, Hsome. simpl in Hentry.
  destruct (filter (λ c, c.1 = t) cs) as [|c l] eqn:Hf.
  - apply eq_None_not_Some. rewrite Hsome.
    intros [[? [=]]|(c & Hc & Ht)].
    assert (c ∈ filter (λ c, c.1 = t) cs) as Hin
      by by apply list_elem_of_filter.
    rewrite Hf in Hin. by apply elem_of_nil in Hin.
  - destruct (accumulate cs ∅ !! t) as [e|] eqn:Hl.
    + simpl in Hentry. by rewrite Hentry.
    + exfalso. apply (is_Some_None (A := Z * Z)). apply Hsome. right.
      assert (c ∈ filter (λ c, c.1 = t) cs) as Hin by (rewrite Hf; left).
      apply list_elem_of_filter in Hin as [? ?]. by exists c.
Qed.

Lemma table_total_empty φ : table_total φ ∅ = 0.
Proof. apply map_fold_empty. Qed.

Lemma table_total_insert (φ : Trace → Z * Z → Z) (t : Trace) (e : Z * Z) (S : Samples) :
  S !! t = None →
  table_total φ (<[t := e]> S) = φ t e + table_total φ S.
Proof.
  intros Ht. unfold table_total.
  rewrite map_fold_insert_L; [done| |done]. intros; lia.
Qed.

Lemma table_total_delete (φ : Trace → Z * Z → Z) (t : Trace) (e : Z * Z) (S : Samples) :
  S !! t = Some e →
  table_total φ S = φ t e + table_total φ (delete t S).
Proof.
  intros Ht. rewrite <- (insert_delete_id S t e Ht) at 1.
  apply table_total_insert, lookup_delete_eq.
Qed.

Lemma table_total_add_sample (φ : Trace → Z * Z → Z) (t : Trace) (c v : Z) (S : Samples) :
  Additive φ →
  table_total φ (add_sample t c v S) = table_total φ S + φ t (c, v).
Proof.
  intros Hadd. unfold add_sample.
  rewrite <- insert_delete_eq.
  rewrite table_total_insert by apply lookup_delete_eq.
  destruct (S !! t) as [[a b]|] eqn:Ht; simpl.
  - rewrite (table_total_delete φ t (a, b) S Ht), Hadd.
    rewrite <- !Z.add_assoc. f_equal. apply Z.add_comm.
  - rewrite delete_id by done.
    pose proof (Hadd t 0 0 0 0) as H0. pose proof (Hadd t 0 0 c v) as H1.
    rewrite !Z.add_0_l in H0. rewrite H1. lia.
Qed.

Lemma table_total_accumulate (φ : Trace → Z * Z → Z)
    (cs : list (Trace * (Z * Z))) (S : Samples) :
  Additive φ →
  table_total φ (accumulate cs S) =
  table_total φ S + total (λ c, φ c.1 c.2) cs.
Proof.
  intros Hadd. revert S. induction cs as [|[t [c v]] cs IH]; intros S; simpl.
  - lia.
  - rewrite IH, table_total_add_sample by done. lia.
Qed.

Lemma leaf_value_additive fr : Additive (leaf_value fr).
Proof. intros t ????. unfold leaf_value. case_decide; simpl; lia. Qed.

Lemma leaf_count_additive fr : Additive (leaf_count fr).
Proof. intros t ????. unfold leaf_count. case_decide; simpl; lia. Qed.

(** ** Accumulation into the coverage map *)

Lemma add_covered_lookup (k : Key) (ns : Z) (C : Coverage) (k' : Key) :
  add_covered k ns C !! k' =
  if decide (k = k') then Some (default 0 (C !! k) + ns) else C !! k'.
Proof. unfold add_covered. by rewrite lookup_insert. Qed.

Lemma accumulate_covered_entry (cs : list (Key * Z)) (C : Coverage)
    (k : Key) :
  default 0 (accumulate_covered cs C !! k) =
  default 0 (C !! k) + total snd (filter (λ c, c.1 = k) cs).
Proof.
  revert C. induction cs as [|c cs IH]; intros C.
  - simpl. lia.
  - change (accumulate_covered (c :: cs) C)
      with (accumulate_covered cs (add_covered c.1 c.2 C)).
    rewrite IH, add_covered_lookup, filter_cons.
    destruct (decide (c.1 = k)) as [->|Hne]; [|done].
    rewrite total_cons. cbn [default from_option id]. lia.
Qed.

Lemma accumulate_covered_is_Some (cs : list (Key * Z)) (C : Coverage)
    (k : Key) :
  is_Some (accumulate_covered cs C !! k) ↔
  is_Some (C !! k) ∨ ∃ c, c ∈ cs ∧ c.1 = k.
Proof.
  revert C. induction cs as [|c cs IH]; intros C; simpl.
  - split; [by left|]. intros [?|(c & Hc & _)]; [done|].
    by apply elem_of_nil in Hc.
  - rewrite IH, add_covered_lookup. setoid_rewrite elem_of_cons.
    destruct (decide (c.1 = k)) as [Heq|Hne].
    + split; [|by eauto]. intros _. right. exists c. by split; [left|].
    + split.
      * intros [?|(c' & ? & ?)]; [by left|]. right. exists c'. by split; [right|].
      * intros [?|(c' & [->|?] & ?)]; [by left|done|]. right. by exists c'.
Qed.

(** The entry of a key is the sum over the edges into it. *)
Lemma coverage_after_entry stats k :
  default 0 (coverage_after stats !! k) = covered_total k stats.
Proof.
  unfold coverage_after, covered_total, edges_into.
  rewrite accumulate_covered_entry, lookup_empty. simpl.
  by rewrite (total_filter_fmap cover_contrib snd (λ c, c.1 = k)).
Qed.

Lemma coverage_after_is_Some stats k :
  is_Some (coverage_after stats !! k) ↔
  ∃ e, e ∈ edges stats ∧ stat_key e.2 = k.
Proof.
  unfold coverage_after. rewrite accumulate_covered_is_Some, lookup_empty.
  split.
  - intros [[? [=]]|(c & Hc & Hk)].
    apply list_elem_of_fmap in Hc as (e & -> & He). by exists e.
  - intros (e & He & Hk). right. exists (cover_contrib e).
    split; [by apply list_elem_of_fmap_2 | done].
Qed.

Lemma coverage_after_lookup stats k :
  coverage_after stats !! k =
  match edges_into k stats with
  | [] => None
  | l => Some (total (λ e, self_ns e.2) l)
  end.
Proof.
  pose proof (coverage_after_entry stats k) as Hentry.
  pose proof (coverage_after_is_Some stats k) as Hsome.
  unfold covered_total in Hentry.
  destruct (edges_into k stats) as [|e l] eqn:Hf.
  - apply eq_None_not_Some. rewrite Hsome. intros (e & He & Hk).
    assert (e ∈ edges_into k stats) as Hin by by apply list_elem_of_filter.
    rewrite Hf in Hin. by apply elem_of_nil in Hin.
  - destruct (coverage_after stats !! k) as [x|] eqn:Hl.
    + simpl in Hentry. by rewrite Hentry.
    + exfalso. apply (is_Some_None (A := Z)). apply Hsome.
      assert (e ∈ edges_into k stats) as Hin by (rewrite Hf; left).
      apply list_elem_of_filter in Hin as [? ?]. by exists e.
Qed.

(** ** The two passes are accumulations *)

Lemma edges_cons F stats :
  edges (F :: stats) = (pair F <$> out_edges F) ++ edges stats.
Proof. reflexivity. Qed.

Lemma edges_app stats1 stats2 :
  edges (stats1 ++ stats2) = edges stats1 ++ edges stats2.
Proof. apply bind_app. Qed.

Lemma elem_of_edges stats F E :
  (F, E) ∈ edges stats ↔ F ∈ stats ∧ E ∈ out_edges F.
Proof.
  unfold edges. rewrite list_elem_of_bind. split.
  - intros (G & HE & HG). apply list_elem_of_fmap in HE as (E' & [= -> ->] & ?).
    done.
  - intros [? ?]. exists F. split; [by apply list_elem_of_fmap_2 | done].
Qed.

Lemma edge_body_Ok (cf : Frame) (S : Samples) (C : Coverage) E :
  Finite E →
  edge_body cf (S, C) E =
  Ok (add_sample [make_frame E; cf] (ncall E) (self_ns E) S,
      add_covered (stat_key E) (self_ns E) C).
Proof.
  intros [x Hx]. unfold edge_body. rewrite (self_ns_Ok _ _ Hx), Hx. simpl.
  by rewrite clamp_max.
Qed.

Lemma edge_body_finite cf st E st' :
  edge_body cf st E = Ok st' → Finite E.
Proof.
  destruct st as [S C]. unfold edge_body, Finite.
  destruct (self_time_ns E) as [x|e]; simpl; [by eauto | done].
Qed.

Lemma edge_loop_accumulate (F : YFuncStat) (cs : list YChildFuncStat)
    (S : Samples) (C : Coverage) :
  Forall Finite cs →
  for_each (edge_body (make_frame F)) cs (S, C) =
  Ok (accumulate (edge_contrib <$> (pair F <$> cs)) S,
      accumulate_covered (cover_contrib <$> (pair F <$> cs)) C).
Proof.
  intros Hcs. revert S C. induction Hcs as [|E cs HE _ IH]; intros S C.
  - done.
  - by rewrite for_each_cons, (edge_body_Ok _ _ _ _ HE), ret_bind, IH.
Qed.

Lemma caller_body_accumulate (F : YFuncStat) (S : Samples) (C : Coverage) :
  Forall Finite (out_edges F) →
  caller_body (S, C) F =
  Ok (accumulate (edge_contrib <$> (pair F <$> out_edges F)) S,
      accumulate_covered (cover_contrib <$> (pair F <$> out_edges F)) C).
Proof.
  unfold caller_body, out_edges. destruct (children F) as [cs|]; simpl.
  - apply edge_loop_accumulate.
  - done.
Qed.

Lemma first_pass_accumulate (stats : list YFuncStat) (S : Samples)
    (C : Coverage) :
  Forall (λ F, Forall Finite (out_edges F)) stats →
  first_pass stats (S, C) =
  Ok (accumulate (edge_contrib <$> edges stats) S,
      accumulate_covered (cover_contrib <$> edges stats) C).
Proof.
  intros Hst. revert S C. induction Hst as [|F stats HF _ IH]; intros S C.
  - done.
  - unfold first_pass in *.
    rewrite for_each_cons, (caller_body_accumulate _ _ _ HF), ret_bind, IH.
    rewrite edges_cons, !fmap_app.
    unfold accumulate, accumulate_covered. by rewrite !foldl_app.
Qed.

Lemma root_body_Ok (C : Coverage) (S : Samples) F :
  Finite F →
  root_body C S F =
  Ok (accumulate (option_list (root_contrib C F)) S).
Proof.
  intros [x Hx]. pose proof (self_ns_Ok _ _ Hx) as Hs.
  unfold root_body, root_contrib, root_count.
  rewrite Hx, ret_bind, clamp_max. fold (covered_of C F).
  rewrite Hs.
  destruct (decide (root_emits (Z.max 0 x) (covered_of C F) (ncall F)))
    as [He|He]; unfold root_emits in He;
    destruct (Z.ltb_spec 0 (Z.max 0 x - covered_of C F));
    destruct (Z.eqb_spec (covered_of C F) 0);
    destruct (Z.ltb_spec 0 (ncall F)); simpl;
    try case_decide; try done; lia.
Qed.

Lemma root_body_finite (C : Coverage) (S S' : Samples) F :
  root_body C S F = Ok S' → Finite F.
Proof.
  unfold root_body, Finite.
  destruct (self_time_ns F) as [x|e]; simpl; [by eauto | done].
Qed.

Lemma second_pass_accumulate (C : Coverage) (stats : list YFuncStat)
    (S : Samples) :
  Forall Finite stats →
  second_pass C stats S = Ok (accumulate (omap (root_contrib C) stats) S).
Proof.
  intros Hst. revert S. induction Hst as [|F stats HF _ IH]; intros S.
  - done.
  - unfold second_pass in *.
    rewrite for_each_cons, (root_body_Ok _ _ _ HF), ret_bind, IH. csimpl.
    destruct (root_contrib C F); done.
Qed.

Lemma Convertible_edges stats :
  Convertible stats → Forall (λ F, Forall Finite (out_edges F)) stats.
Proof. intros Hc. eapply Forall_impl; [exact Hc|]. by intros F [_ ?]. Qed.

Lemma Convertible_records stats :
  Convertible stats → Forall Finite stats.
Proof. intros Hc. eapply Forall_impl; [exact Hc|]. by intros F [? _]. Qed.

(** The converter never raises on a convertible input, and its table is
    the accumulation of the edge contributions followed by the root
    contributions. *)
Lemma sample_table_accumulate stats :
  Convertible stats →
  sample_table stats = Ok (accumulate (contributions stats) ∅).
Proof.
  intros Hc. unfold sample_table, contributions, coverage_after.
  rewrite first_pass_accumulate by by apply Convertible_edges.
  rewrite ret_bind. cbv beta iota.
  rewrite second_pass_accumulate by by apply Convertible_records.
  by rewrite accumulate_app.
Qed.

Lemma for_each_Ok_Forall {A St} (body : St → A → result St)
    (P : A → Prop) l st st' :
  (∀ s x s', body s x = Ok s' → P x) →
  for_each body l st = Ok st' → Forall P l.
Proof.
  intros Hbody. revert st. induction l as [|x l IH]; intros st Hrun.
  - constructor.
  - rewrite for_each_cons in Hrun. apply bind_Ok in Hrun as (s & Hx & Hl).
    constructor; [by eapply Hbody | by eapply IH].
Qed.

(** The converter returns exactly on the convertible inputs. *)
Lemma sample_table_Ok_iff stats :
  (∃ S, sample_table stats = Ok S) ↔ Convertible stats.
Proof.
  split; [|intros Hc; eexists; by apply sample_table_accumulate].
  intros [S HS]. unfold sample_table in HS.
  apply bind_Ok in HS as ([S1 C] & H1 & H2).
  apply (for_each_Ok_Forall _ (λ F, Forall Finite (out_edges F))) in H1.
  - apply (for_each_Ok_Forall _ Finite) in H2;
      [|intros ???; apply root_body_finite].
    unfold Convertible. rewrite Forall_forall in *. naive_solver.
  - intros st F st'. unfold caller_body, out_edges.
    destruct (children F) as [cs|]; simpl; [|constructor].
    apply for_each_Ok_Forall. intros ???. apply edge_body_finite.
Qed.

Lemma total_ext {X} (f g : X → Z) l :
  (∀ x, x ∈ l → f x = g x) → total f l = total g l.
Proof.
  induction l as [|x l IH]; intros Hfg; [done|].
  rewrite !total_cons, IH, Hfg; [done|left|]. intros y Hy. apply Hfg. by right.
Qed.

Lemma total_filter {X} (f : X → Z) (P : X → Prop) `{∀ x, Decision (P x)} l :
  total f (filter P l) = total (λ x, if decide (P x) then f x else 0) l.
Proof.
  induction l as [|x l IH]; [done|].
  rewrite filter_cons, total_cons. destruct (decide (P x)); rewrite <- IH; done.
Qed.

Lemma filter_fmap {X Y} (g : X → Y) (P : Y → Prop) `{∀ y, Decision (P y)}
    (l : list X) :
  filter P (g <$> l) = g <$> filter (P ∘ g) l.
Proof.
  induction l as [|x l IH]; [done|].
  rewrite fmap_cons, !filter_cons. simpl.
  destruct (decide (P (g x))); by rewrite ?fmap_cons, IH.
Qed.

Lemma filter_omap {X Y} (g : X → option Y) (Q : Y → Prop) (P : X → Prop)
    `{∀ y, Decision (Q y)} `{∀ x, Decision (P x)} (l : list X) :
  (∀ x y, g x = Some y → (Q y ↔ P x)) →
  filter Q (omap g l) = omap g (filter P l).
Proof.
  intros HQP. induction l as [|x l IH]; [done|].
  rewrite filter_cons. csimpl. destruct (g x) as [y|] eqn:Hg.
  - rewrite filter_cons.
    pose proof (HQP x y Hg) as Hxy.
    destruct (decide (P x)) as [HP|HP]; destruct (decide (Q y)) as [HQ|HQ];
      csimpl; rewrite ?Hg, ?IH; try done; tauto.
  - destruct (decide (P x)); csimpl; by rewrite ?Hg, IH.
Qed.

(** ** The final table, entry by entry *)

Lemma root_contrib_trace C F c :
  root_contrib C F = Some c → c.1 = [make_frame F].
Proof. unfold root_contrib. case_decide; by intros [= <-]. Qed.

(** The two-frame entries are the sums over the edges of the trace. *)
Lemma edge_entry stats (t : Trace) :
  length t = 2%nat →
  accumulate (contributions stats) ∅ !! t =
  match edges_of_trace t stats with
  | [] => None
  | l => Some (total (λ e, ncall e.2) l, total (λ e, self_ns e.2) l)
  end.
Proof.
  intros Hlen. rewrite accumulate_lookup. unfold contributions.
  rewrite filter_app, (filter_none _ (omap _ _)), app_nil_r.
  - rewrite filter_fmap.
    change (filter _ (edges stats)) with (edges_of_trace t stats).
    destruct (edges_of_trace t stats) as [|e l]; [done|].
    rewrite fmap_cons. cbv iota. by rewrite <- fmap_cons, !total_fmap.
  - intros c Hc Ht. apply list_elem_of_omap in Hc as (F & _ & Hc).
    apply root_contrib_trace in Hc. by rewrite <- Ht, Hc in Hlen.
Qed.

(** With pairwise distinct identities, the one-frame entry of a record is
    its own root contribution, if it makes one. *)
Lemma root_entry stats F :
  NoDup (stat_key <$> stats) → F ∈ stats →
  accumulate (contributions stats) ∅ !! [make_frame F] =
  snd <$> root_contrib (coverage_after stats) F.
Proof.
  intros Hnd HF. rewrite accumulate_lookup. unfold contributions.
  rewrite filter_app, (filter_none _ (_ <$> _)), app_nil_l.
  - rewrite (filter_omap _ _ (λ G, stat_key G = stat_key F)).
    + rewrite (filter_key_unique stat_key) by done. csimpl.
      destruct (root_contrib _ F) as [[t [c v]]|]; simpl; [|done].
      f_equal. f_equal; lia.
    + intros G c Hc. apply root_contrib_trace in Hc. rewrite Hc.
      split; [intros Heq; apply make_frame_key; congruence|].
      intros Heq%make_frame_key. congruence.
  - intros c Hc Ht. apply list_elem_of_fmap in Hc as (e & -> & _). done.
Qed.

(** Root contributions never count as edge samples. *)
Lemma table_total_contributions (φ : Trace → Z * Z → Z) stats :
  Additive φ → (∀ fr e, φ [fr] e = 0) →
  table_total φ (accumulate (contributions stats) ∅) =
  total (λ e, φ [make_frame e.2; make_frame e.1] (ncall e.2, self_ns e.2))
    (edges stats).
Proof.
  intros Hadd Hroot.
  rewrite table_total_accumulate, table_total_empty by done.
  unfold contributions. rewrite total_app, total_fmap, (total_zero _ (omap _ _)).
  - by rewrite Z.add_0_l, Z.add_0_r.
  - apply Forall_forall. intros c Hc.
    apply list_elem_of_omap in Hc as (F & _ & Hc).
    apply root_contrib_trace in Hc. by rewrite Hc.
Qed.

Lemma edge_trace_of_frame {A B} `{StatLike A} `{StatLike B}
    (F : A) (E : B) (caller : Frame) :
  edge_trace_of (make_frame F) [make_frame E; caller] ↔
  stat_key E = stat_key F.
Proof. simpl. apply make_frame_key. Qed.

(** The edge samples with leaf [F] carry the coverage of [F]. *)
Lemma edge_value_into_covered stats (F : YFuncStat) :
  edge_value_into (make_frame F) (accumulate (contributions stats) ∅) =
  covered_total (stat_key F) stats.
Proof.
  unfold edge_value_into.
  rewrite table_total_contributions; [|apply leaf_value_additive|done].
  unfold covered_total, edges_into. rewrite total_filter.
  apply total_ext. intros [G E] _. unfold leaf_value.
  pose proof (edge_trace_of_frame F E (make_frame G)) as Hiff.
  do 2 case_decide; first [done | tauto].
Qed.

Lemma edge_count_into_edges stats (F : YFuncStat) :
  edge_count_into (make_frame F) (accumulate (contributions stats) ∅) =
  total (λ e, ncall e.2) (edges_into (stat_key F) stats).
Proof.
  unfold edge_count_into.
  rewrite table_total_contributions; [|apply leaf_count_additive|done].
  unfold edges_into. rewrite total_filter.
  apply total_ext. intros [G E] _. unfold leaf_count.
  pose proof (edge_trace_of_frame F E (make_frame G)) as Hiff.
  do 2 case_decide; first [done | tauto].
Qed.

(** * The claims *)

(** C9 (Scenario A). A single record [main] without children, with
    [ttot = tsub = 0] and [ncall = 1], converts to exactly one sample: the
    one-frame trace of [main] with count 1 and value 0. This holds whether
    the record has an empty [children] collection or none at all. *)
Theorem scenario_A_single_root md line has_children :
  sample_table [Scenario.main_only md line has_children] =
  Ok {[ [("main", md, line, line)] := (1, 0) ]}.
Proof.
  rewrite sample_table_accumulate.
  - by destruct has_children.
  - repeat constructor; [by exists 0 | destruct has_children; constructor].
Qed.

(** C2. What [_convert_to_pprof] hands to the builder: the profile kind
    is 'CPU' for the clock 'cpu' and 'WALL' otherwise, the period is 1,
    the duration is the one received, and the table is the one of the
    two passes; the unit handed over is the literal 'count', not
    'nanoseconds'. *)
Theorem convert_hands_over_count_unit self stats duration_ns :
  match _convert_to_pprof self stats duration_ns with
  | Ok (Some call) =>
      sample_table stats = Ok (call_samples call) ∧
      call_sample_type call =
        (if decide (_clock_type self = "cpu") then "CPU" else "WALL") ∧
      call_sample_unit call = "count" ∧
      call_sample_unit call ≠ "nanoseconds" ∧
      call_period call = 1 ∧
      call_duration_ns call = duration_ns
  | Ok None => False
  | Raise e => sample_table stats = Raise e
  end.
Proof.
  unfold _convert_to_pprof. destruct (sample_table stats) as [S|e]; simpl.
  - repeat split; try done.
    case_decide as Hclock.
    + by rewrite Hclock.
    + apply String.eqb_neq in Hclock. by rewrite Hclock.
  - done.
Qed.


(** ** Evaluation on concrete inputs *)

Lemma returns_Ok (r : result Samples) (P : Samples → Prop) :
  returns r P → ∃ S, r = Ok S ∧ P S.
Proof. destruct r as [S|e]; [by exists S | done]. Qed.

Lemma finiteb_Finite {A} `{StatLike A} (s : A) : finiteb s = true → Finite s.
Proof.
  unfold finiteb, Finite. destruct (self_time_ns s) as [x|]; [by exists x|done].
Qed.

Lemma convertibleb_Convertible stats :
  convertibleb stats = true → Convertible stats.
Proof.
  unfold convertibleb, Convertible. rewrite forallb_forall, Forall_forall.
  intros Hall F HF. apply list_elem_of_In, Hall, andb_prop in HF as [HF Hcs].
  split; [by apply finiteb_Finite|].
  rewrite forallb_forall in Hcs. apply Forall_forall.
  intros E HE. by apply finiteb_Finite, Hcs, list_elem_of_In.
Qed.

(** ** Self time attributed to a record *)

(** The edge samples with leaf [F] and the root sample of [F] carry
    together the larger of the self time of [F] and its coverage. *)
Lemma attributed_self_time stats F :
  NoDup (stat_key <$> stats) → F ∈ stats →
  edge_value_into (make_frame F) (accumulate (contributions stats) ∅)
    + root_value (make_frame F) (accumulate (contributions stats) ∅) =
  Z.max (self_ns F) (covered_total (stat_key F) stats).
Proof.
  intros Hnd HF. rewrite edge_value_into_covered.
  unfold root_value. rewrite root_entry by done.
  unfold root_contrib, covered_of. rewrite coverage_after_entry.
  pose proof (self_ns_nonneg F).
  case_decide as He; unfold root_emits in He; simpl; lia.
Qed.

(** C1, as stated, fails. [B] is called by [A] for 0.1 s and by [C] for
    0.7 s, and its own record has the total [0.1 + 0.7]: the two edge
    samples carry 800000000 ns, the record converts to 799999999 ns and no
    root sample is emitted. *)
Lemma conservation_fails_when_over_covered :
  ∃ S, sample_table Scenario.two_callers = Ok S ∧
    Scenario.B_two_callers ∈ Scenario.two_callers ∧
    self_time_ns Scenario.B_two_callers = Ok 799999999 ∧
    edge_value_into (make_frame Scenario.B_two_callers) S = 800000000 ∧
    S !! [make_frame Scenario.B_two_callers] = None ∧
    ¬ conserved S Scenario.B_two_callers.
Proof.
  apply returns_Ok. vm_compute.
  split; [do 2 right; left|]. do 3 (split; [reflexivity|]).
  by intros (x & [= <-] & Hsum).
Qed.

(** C1, amended. For every record [F] of an input with pairwise distinct
    identities whose coverage (the clamped self times of the edges into
    [F]) does not exceed its own clamped self time: the values of the
    two-frame samples with leaf [F] plus the value of the one-frame sample
    of [F], when there is one, equal max(0, nanoseconds(ttot - tsub)). *)
Theorem self_time_conserved stats F :
  Convertible stats →
  NoDup (stat_key <$> stats) →
  F ∈ stats →
  covered_total (stat_key F) stats ≤ self_ns F →
  ∃ S, sample_table stats = Ok S ∧ conserved S F.
Proof.
  intros Hc Hnd HF Hcov. eexists. split; [by apply sample_table_accumulate|].
  assert (Finite F) as [x Hx].
  { apply Convertible_records in Hc. rewrite Forall_forall in Hc. auto. }
  exists x. split; [done|].
  rewrite attributed_self_time by done. rewrite <- (self_ns_Ok _ _ Hx). lia.
Qed.

Lemma self_time_conserved_witness :
  ∃ S, sample_table Scenario.remainder_call = Ok S ∧
    conserved S Scenario.B_remainder.
Proof.
  apply (self_time_conserved Scenario.remainder_call Scenario.B_remainder).
  - apply convertibleb_Convertible. reflexivity.
  - apply (bool_decide_unpack _). vm_compute. exact I.
  - do 2 right. left.
  - vm_compute. discriminate.
Defined.

(** C6. On the input where [A] calls [B] once and every measured time is
    zero, the counts of the samples sum to 3 while the invocation counts
    of the input records sum to 2: the one-frame sample of [B] carries the
    count 1 that the edge sample [(B, A)] already carries. *)
Theorem zero_time_call_inflates_counts :
  ∃ S, sample_table Scenario.zero_time_call = Ok S ∧
    count_total S = 3 ∧
    total ncall Scenario.zero_time_call = 2 ∧
    S !! [make_frame Scenario.B_zero_time; make_frame Scenario.A_zero_time]
      = Some (1, 0) ∧
    S !! [make_frame Scenario.B_zero_time] = Some (1, 0).
Proof. apply returns_Ok. by vm_compute. Qed.

(** ** The edge pass *)

Lemma first_pass_entry stats (t : Trace) :
  accumulate (edge_contrib <$> edges stats) ∅ !! t =
  match edges_of_trace t stats with
  | [] => None
  | l => Some (total (λ e, ncall e.2) l, total (λ e, self_ns e.2) l)
  end.
Proof.
  rewrite accumulate_lookup, filter_fmap.
  change (filter _ (edges stats)) with (edges_of_trace t stats).
  destruct (edges_of_trace t stats) as [|e l]; [done|].
  rewrite fmap_cons. cbv iota zeta. by rewrite <- fmap_cons, !total_fmap.
Qed.

(** C3. For every record [F] and every [E] among its children, with
    [self_time = max(0, int((E.ttot - E.tsub) * 1e9))]: the body of the
    edge loop adds [(E.ncall, self_time)] to the entry of the trace
    [(Frame(E), Frame(F))], callee first, and adds [self_time] to the
    coverage entry of the identity of [E]; after the whole pass the entry of
    that trace holds the sums over all edges of the trace and the coverage
    entry holds the sum over all edges into that callee. *)
Theorem edge_pass_accumulates stats F cs E x :
  Forall (λ G, Forall Finite (out_edges G)) stats →
  F ∈ stats → children F = Some cs → E ∈ cs →
  self_time_ns E = Ok x →
  let self_time := Z.max 0 x in
  let trace := [make_frame E; make_frame F] in
  trace !! 0%nat = Some (make_frame E) ∧
  (∀ (S : Samples) (C : Coverage),
     edge_body (make_frame F) (S, C) E =
     Ok (<[trace := ((default (0, 0) (S !! trace)).1 + ncall E,
                     (default (0, 0) (S !! trace)).2 + self_time)]> S,
         <[stat_key E := default 0 (C !! stat_key E) + self_time]> C)) ∧
  ∃ (S : Samples) (C : Coverage),
    first_pass stats (∅, ∅) = Ok (S, C) ∧
    (F, E) ∈ edges_of_trace trace stats ∧
    S !! trace =
      Some (total (λ e, ncall e.2) (edges_of_trace trace stats),
            total (λ e, Z.max 0 (self_ns e.2)) (edges_of_trace trace stats)) ∧
    (F, E) ∈ edges_into (stat_key E) stats ∧
    C !! stat_key E =
      Some (total (λ e, Z.max 0 (self_ns e.2)) (edges_into (stat_key E) stats)) ∧
    self_ns E = self_time.
Proof.
  intros Hfin HF Hcs HE Hx self_time trace.
  assert ((F, E) ∈ edges stats) as Hedge.
  { apply elem_of_edges. unfold out_edges. by rewrite Hcs. }
  assert (∀ l : list (YFuncStat * YChildFuncStat),
    total (λ e, Z.max 0 (self_ns e.2)) l = total (λ e, self_ns e.2) l) as Hmax.
  { intros l. apply total_ext. intros e _. pose proof (self_ns_nonneg e.2). lia. }
  split; [done|]. split.
  - intros S C. rewrite edge_body_Ok by by exists x.
    by rewrite (self_ns_Ok _ _ Hx).
  - eexists _, _. split; [by apply first_pass_accumulate|].
    assert ((F, E) ∈ edges_of_trace trace stats) as Htr
      by by apply list_elem_of_filter.
    assert ((F, E) ∈ edges_into (stat_key E) stats) as Hinto
      by by apply list_elem_of_filter.
    rewrite !Hmax. repeat split; try done.
    + rewrite first_pass_entry.
      destruct (edges_of_trace trace stats); [by apply elem_of_nil in Htr|done].
    + fold (coverage_after stats). rewrite coverage_after_lookup.
      destruct (edges_into (stat_key E) stats);
        [by apply elem_of_nil in Hinto|done].
    + by apply self_ns_Ok.
Qed.

Lemma edge_pass_accumulates_witness :
  ∃ (S : Samples) (C : Coverage),
    first_pass Scenario.remainder_call (∅, ∅) = Ok (S, C) ∧
    S !! [make_frame Scenario.B_from_A; make_frame Scenario.A_remainder]
      = Some (1, 5000000) ∧
    C !! stat_key Scenario.B_from_A = Some 10000000.
Proof.
  destruct (edge_pass_accumulates Scenario.remainder_call
              Scenario.A_remainder [Scenario.B_from_A] Scenario.B_from_A
              5000000) as (_ & _ & S & C & Hrun & _ & HS & _ & HC & _).
  - repeat constructor; apply finiteb_Finite; reflexivity.
  - left.
  - reflexivity.
  - left.
  - reflexivity.
  - exists S, C. split; [exact Hrun|]. split.
    + rewrite HS. vm_compute. reflexivity.
    + rewrite HC. vm_compute. reflexivity.
Defined.

(** ** The root pass *)

Lemma add_sample_changes (t : Trace) (c v : Z) (S : Samples) :
  c ≠ 0 ∨ v ≠ 0 → add_sample t c v S ≠ S.
Proof.
  intros Hcv Heq.
  assert (add_sample t c v S !! t = S !! t) as Ht by by rewrite Heq.
  rewrite add_sample_lookup, decide_True in Ht by done.
  destruct (S !! t) as [[a b]|]; simpl in Ht; [|done].
  injection Ht as ??. lia.
Qed.

(** The step of the root pass on [F], by the decision it takes. *)
Lemma root_body_cases (C : Coverage) (S : Samples) F x :
  self_time_ns F = Ok x →
  let covered_ns := default 0 (C !! stat_key F) in
  let remainder_ns := Z.max 0 x - covered_ns in
  root_body C S F =
  Ok (if decide (remainder_ns > 0 ∨ (covered_ns = 0 ∧ ncall F > 0))
      then add_sample [make_frame F]
             (if decide (covered_ns = 0) then ncall F else 0) remainder_ns S
      else S).
Proof.
  intros Hx covered_ns remainder_ns.
  rewrite root_body_Ok by by exists x.
  unfold root_contrib, root_emits, root_count, covered_of.
  rewrite (self_ns_Ok _ _ Hx). fold covered_ns. fold remainder_ns.
  by case_decide.
Qed.

(** On a convertible input the first pass returns the accumulated edge
    contributions and the coverage map, and the second pass completes the
    table. *)
Lemma passes_run stats :
  Convertible stats →
  first_pass stats (∅, ∅) =
    Ok (accumulate (edge_contrib <$> edges stats) ∅, coverage_after stats) ∧
  second_pass (coverage_after stats) stats
      (accumulate (edge_contrib <$> edges stats) ∅) =
    Ok (accumulate (contributions stats) ∅) ∧
  sample_table stats = Ok (accumulate (contributions stats) ∅).
Proof.
  intros Hc. split; [|split].
  - by apply first_pass_accumulate, Convertible_edges.
  - rewrite second_pass_accumulate by by apply Convertible_records.
    unfold contributions. by rewrite accumulate_app.
  - by apply sample_table_accumulate.
Qed.

(** C4. For every record [F], with [covered_ns] its coverage entry (0 if
    absent) and [remainder_ns = max(0, int((F.ttot - F.tsub) * 1e9)) -
    covered_ns]: the step of the root pass on [F] changes the sample table
    if and only if [remainder_ns > 0] or ([covered_ns = 0] and
    [F.ncall > 0]), and what it changes is the entry of the one-frame trace
    [(Frame(F),)]; with pairwise distinct identities the final table has an
    entry for that trace under exactly this condition. *)
Theorem root_sample_emitted_iff stats F x :
  Convertible stats → F ∈ stats → self_time_ns F = Ok x →
  ∃ (S1 : Samples) (C : Coverage) (S2 : Samples),
    first_pass stats (∅, ∅) = Ok (S1, C) ∧
    second_pass C stats S1 = Ok S2 ∧
    sample_table stats = Ok S2 ∧
    let covered_ns := default 0 (C !! stat_key F) in
    let remainder_ns := Z.max 0 x - covered_ns in
    let emits := remainder_ns > 0 ∨ (covered_ns = 0 ∧ ncall F > 0) in
    (∀ S : Samples, ∃ S' : Samples,
       root_body C S F = Ok S' ∧
       (S' ≠ S ↔ emits) ∧
       (∀ t, t ≠ [make_frame F] → S' !! t = S !! t)) ∧
    (emits → is_Some (S2 !! [make_frame F])) ∧
    (NoDup (stat_key <$> stats) → is_Some (S2 !! [make_frame F]) → emits).
Proof.
  intros Hc HF Hx. destruct (passes_run stats Hc) as (H1 & H2 & H3).
  eexists _, _, _. split; [exact H1|]. split; [exact H2|]. split; [exact H3|].
  intros covered_ns remainder_ns emits.
  pose proof (self_ns_Ok _ _ Hx) as Hs.
  assert (root_emits (self_ns F) (covered_of (coverage_after stats) F)
            (ncall F) ↔ emits) as Hiff.
  { unfold root_emits, covered_of. by rewrite Hs. }
  split; [|split].
  - intros S. eexists. split; [by apply root_body_cases|].
    fold covered_ns remainder_ns emits. case_decide as He.
    + split.
      * split; [done|]. intros _. apply add_sample_changes.
        case_decide; unfold emits in He; lia.
      * intros t Ht. by rewrite add_sample_lookup, decide_False.
    + split; [|done]. split; [done|]. intros He'. by destruct He.
  - intros He%Hiff. apply accumulate_is_Some. right.
    eexists. split.
    + unfold contributions. apply elem_of_app. right.
      apply list_elem_of_omap. exists F. split; [done|].
      unfold root_contrib. by rewrite decide_True.
    + done.
  - intros Hnd. rewrite root_entry by done. unfold root_contrib.
    case_decide as He; [by intros _; apply Hiff|]. by intros [? [=]].
Qed.

Lemma root_sample_emitted_iff_witness :
  ∃ S2 : Samples,
    sample_table Scenario.remainder_call = Ok S2 ∧
    is_Some (S2 !! [make_frame Scenario.B_remainder]).
Proof.
  destruct (root_sample_emitted_iff Scenario.remainder_call
              Scenario.B_remainder 12000000)
    as (S1 & C & S2 & H1 & _ & H3 & _ & Hemit & _).
  - apply convertibleb_Convertible. reflexivity.
  - do 2 right. left.
  - reflexivity.
  - exists S2. split; [exact H3|]. apply Hemit. left.
    assert (first_pass Scenario.remainder_call (∅, ∅) =
            Ok (accumulate (edge_contrib <$> edges Scenario.remainder_call) ∅,
                coverage_after Scenario.remainder_call)) as H1'
      by (apply passes_run, convertibleb_Convertible; reflexivity).
    rewrite H1 in H1'. injection H1' as _ ->. by vm_compute.
Defined.

(** C5. For every record [F] for which the root pass emits a sample: the
    count the step adds to the one-frame entry is [F.ncall] when
    [covered_ns = 0] and 0 otherwise, together with the value
    [remainder_ns]; with pairwise distinct identities these are the count
    and the value of the one-frame entry of the final table. *)
Theorem root_sample_count stats F x :
  Convertible stats → F ∈ stats → self_time_ns F = Ok x →
  ∃ (S1 : Samples) (C : Coverage) (S2 : Samples),
    first_pass stats (∅, ∅) = Ok (S1, C) ∧
    sample_table stats = Ok S2 ∧
    let covered_ns := default 0 (C !! stat_key F) in
    let remainder_ns := Z.max 0 x - covered_ns in
    let count := if decide (covered_ns = 0) then ncall F else 0 in
    (remainder_ns > 0 ∨ (covered_ns = 0 ∧ ncall F > 0)) →
    (∀ S : Samples,
       root_body C S F =
       Ok (<[ [make_frame F] :=
               ((default (0, 0) (S !! [make_frame F])).1 + count,
                (default (0, 0) (S !! [make_frame F])).2 + remainder_ns) ]> S)) ∧
    (NoDup (stat_key <$> stats) →
       S2 !! [make_frame F] = Some (count, remainder_ns)).
Proof.
  intros Hc HF Hx. destruct (passes_run stats Hc) as (H1 & H2 & H3).
  eexists _, _, _. split; [exact H1|]. split; [exact H3|].
  intros covered_ns remainder_ns count He.
  pose proof (self_ns_Ok _ _ Hx) as Hs. split.
  - intros S. rewrite (root_body_cases _ _ _ _ Hx).
    fold covered_ns remainder_ns. by rewrite decide_True.
  - intros Hnd. rewrite root_entry by done.
    unfold root_contrib, root_emits, root_count, covered_of. rewrite Hs.
    fold covered_ns remainder_ns. by rewrite decide_True.
Qed.

Lemma root_sample_count_witness :
  ∃ S2 : Samples,
    sample_table Scenario.remainder_call = Ok S2 ∧
    S2 !! [make_frame Scenario.B_remainder] = Some (0, 2000000).
Proof.
  destruct (root_sample_count Scenario.remainder_call
              Scenario.B_remainder 12000000)
    as (S1 & C & S2 & H1 & H3 & Hcount).
  - apply convertibleb_Convertible. reflexivity.
  - do 2 right. left.
  - reflexivity.
  - exists S2. split; [exact H3|].
    assert (first_pass Scenario.remainder_call (∅, ∅) =
            Ok (accumulate (edge_contrib <$> edges Scenario.remainder_call) ∅,
                coverage_after Scenario.remainder_call)) as H1'
      by (apply passes_run, convertibleb_Convertible; reflexivity).
    rewrite H1 in H1'. injection H1' as _ ->.
    destruct Hcount as [_ Hentry]; [left; by vm_compute|].
    rewrite Hentry; [by vm_compute|].
    apply (bool_decide_unpack _). vm_compute. exact I.
Defined.

(** ** Signs *)

Lemma edge_contrib_nonneg stats c :
  CountsNonNeg stats → c ∈ edge_contrib <$> edges stats →
  0 ≤ c.2.1 ∧ 0 ≤ c.2.2.
Proof.
  intros Hnn Hc. apply list_elem_of_fmap in Hc as ([F E] & -> & He).
  apply elem_of_edges in He as [HF HE]. unfold CountsNonNeg in Hnn.
  rewrite Forall_forall in Hnn. destruct (Hnn F HF) as [_ HEs].
  rewrite Forall_forall in HEs. simpl. split; [by apply HEs|].
  apply self_ns_nonneg.
Qed.

Lemma root_contrib_nonneg (C : Coverage) F c :
  0 ≤ ncall F → root_contrib C F = Some c → 0 ≤ c.2.1 ∧ 0 ≤ c.2.2.
Proof.
  intros Hn. unfold root_contrib, root_count.
  pose proof (self_ns_nonneg F).
  case_decide as He; [|done]. intros [= <-].
  unfold root_emits in He. simpl in *. case_decide; lia.
Qed.

(** C7. On every input whose invocation counts are non-negative, every
    entry of the final sample table has a non-negative count and a
    non-negative value. *)
Theorem samples_nonneg stats :
  Convertible stats → CountsNonNeg stats →
  ∃ S : Samples, sample_table stats = Ok S ∧
    ∀ t c v, S !! t = Some (c, v) → 0 ≤ c ∧ 0 ≤ v.
Proof.
  intros Hc Hnn. eexists. split; [by apply sample_table_accumulate|].
  intros t c v Ht.
  pose proof (accumulate_entry (contributions stats) ∅ t) as Hentry.
  rewrite Ht, lookup_empty in Hentry. simpl in Hentry.
  injection Hentry as -> ->.
  assert (Forall (λ c, 0 ≤ c.2.1 ∧ 0 ≤ c.2.2) (contributions stats)) as Hall.
  { apply Forall_app. split; apply Forall_forall; intros c Hin.
    - by eapply edge_contrib_nonneg.
    - apply list_elem_of_omap in Hin as (F & HF & Hin).
      eapply root_contrib_nonneg; [|done].
      unfold CountsNonNeg in Hnn. rewrite Forall_forall in Hnn.
      by apply Hnn. }
  split; (apply Z.add_nonneg_nonneg; [done|]); apply total_nonneg;
    apply Forall_forall; intros c Hin;
    apply list_elem_of_filter in Hin as [_ Hin];
    rewrite Forall_forall in Hall; by apply Hall.
Qed.

Lemma samples_nonneg_witness :
  ∃ S : Samples, sample_table Scenario.remainder_call = Ok S ∧
    ∀ t c v, S !! t = Some (c, v) → 0 ≤ c ∧ 0 ≤ v.
Proof.
  apply (samples_nonneg Scenario.remainder_call).
  - apply convertibleb_Convertible. reflexivity.
  - repeat constructor; simpl; lia.
Defined.

(** ** Records without a [children] collection *)

Lemma for_each_replace {A St} (body : St → A → result St) x y l1 l2 st :
  (∀ s, body s x = body s y) →
  for_each body (l1 ++ x :: l2) st = for_each body (l1 ++ y :: l2) st.
Proof.
  intros Hxy. rewrite !for_each_app.
  destruct (for_each body l1 st) as [s|e]; [|done].
  rewrite !ret_bind, !for_each_cons. by rewrite Hxy.
Qed.

(** C8. A record [F] without a [children] collection is no error: the
    step of the edge pass on [F] returns the sample table and the
    coverage map unchanged, the conversion gives what it gives when [F]
    has an empty collection, and it returns whenever the self times of
    the records and of the other records' edges convert; the root pass
    still handles [F]: the table has the one-frame entry of [F] when the
    decision of the root pass holds for [F]. *)
Theorem missing_children_is_no_edge l1 F l2 :
  children F = None →
  let stats := l1 ++ F :: l2 in
  (∀ st, caller_body st F = Ok st) ∧
  sample_table stats = sample_table (l1 ++ set_children (Some []) F :: l2) ∧
  (Finite F → Convertible (l1 ++ l2) →
   ∃ S : Samples, sample_table stats = Ok S ∧
     (root_emits (self_ns F) (covered_total (stat_key F) stats) (ncall F) →
      is_Some (S !! [make_frame F]))).
Proof.
  intros Hch stats. split; [|split].
  - intros st. unfold caller_body. by rewrite Hch.
  - unfold stats, sample_table, first_pass.
    rewrite (for_each_replace caller_body F (set_children (Some []) F)).
    + destruct (for_each caller_body _ _) as [[S C]|e]; [|done].
      rewrite !ret_bind. cbv beta iota. unfold second_pass.
      by apply for_each_replace.
    + intros st. unfold caller_body. by rewrite Hch.
  - intros HF Hc.
    assert (Convertible stats) as Hstats.
    { unfold Convertible, stats in *.
      apply Forall_app in Hc as [Hc1 Hc2]. apply Forall_app. split; [done|].
      constructor; [|done]. split; [done|].
      unfold out_edges. rewrite Hch. constructor. }
    eexists. split; [by apply sample_table_accumulate|].
    intros He. apply accumulate_is_Some. right. eexists. split.
    + unfold contributions. apply elem_of_app. right.
      apply list_elem_of_omap. exists F.
      split; [unfold stats; set_solver|].
      unfold root_contrib, covered_of. rewrite coverage_after_entry.
      by rewrite decide_True.
    + done.
Qed.

Lemma missing_children_is_no_edge_witness :
  ∃ S : Samples, sample_table Scenario.zero_time_call = Ok S ∧
    is_Some (S !! [make_frame Scenario.B_zero_time]).
Proof.
  destruct (missing_children_is_no_edge [Scenario.A_zero_time]
              Scenario.B_zero_time []) as (_ & _ & Hrun).
  - reflexivity.
  - destruct Hrun as (S & HS & Hroot).
    + apply finiteb_Finite. reflexivity.
    + apply convertibleb_Convertible. reflexivity.
    + exists S. split; [exact HS|]. apply Hroot. right. by vm_compute.
Defined.

(** ** Callees whose edges carry no time *)

(** C10. For every record [F] that is the callee of at least one edge and
    whose edges all have a clamped self time of zero: the coverage map has
    an entry for [F] and it is 0; the step of the root pass on [F], when
    [F.ncall > 0], adds the count [F.ncall] and the value
    max(0, nanoseconds(ttot - tsub)) of [F] to its one-frame entry, and
    with pairwise distinct identities this is the one-frame entry of the
    final table; the two-frame samples with leaf [F] keep the counts of
    all the edges into [F]. *)
Theorem zero_time_callee_is_root stats F :
  Convertible stats → F ∈ stats →
  edges_into (stat_key F) stats ≠ [] →
  Forall (λ e, self_ns e.2 = 0) (edges_into (stat_key F) stats) →
  ∃ (S1 : Samples) (C : Coverage) (S2 : Samples),
    first_pass stats (∅, ∅) = Ok (S1, C) ∧
    sample_table stats = Ok S2 ∧
    C !! stat_key F = Some 0 ∧
    (ncall F > 0 →
       (∀ S : Samples,
          root_body C S F =
          Ok (add_sample [make_frame F] (ncall F) (self_ns F) S)) ∧
       (NoDup (stat_key <$> stats) →
          S2 !! [make_frame F] = Some (ncall F, self_ns F))) ∧
    edge_count_into (make_frame F) S2 =
      total (λ e, ncall e.2) (edges_into (stat_key F) stats).
Proof.
  intros Hc HF Hne Hzero. destruct (passes_run stats Hc) as (H1 & _ & H3).
  eexists _, _, _. split; [exact H1|]. split; [exact H3|].
  assert (coverage_after stats !! stat_key F = Some 0) as Hcov.
  { rewrite coverage_after_lookup.
    destruct (edges_into (stat_key F) stats) as [|e l] eqn:Hl; [done|].
    f_equal. by apply total_zero. }
  assert (Finite F) as [x Hx].
  { apply Convertible_records in Hc. rewrite Forall_forall in Hc. auto. }
  pose proof (self_ns_Ok _ _ Hx) as Hs. pose proof (self_ns_nonneg F) as Hs0.
  split; [done|]. split; [|apply edge_count_into_edges].
  intros Hn. split.
  - intros S. rewrite (root_body_cases _ _ _ _ Hx), Hcov. simpl.
    rewrite decide_True by (right; split; [reflexivity | exact Hn]).
    rewrite ?decide_True by done.
    rewrite Hs. f_equal. f_equal. lia.
  - intros Hnd. rewrite root_entry by done.
    unfold root_contrib, root_count, covered_of. rewrite Hcov. simpl.
    rewrite decide_True by (right; split; [reflexivity | exact Hn]).
    rewrite ?decide_True by done.
    simpl. f_equal. f_equal. lia.
Qed.

Lemma zero_time_callee_is_root_witness :
  ∃ S2 : Samples, sample_table Scenario.zero_time_call = Ok S2 ∧
    S2 !! [make_frame Scenario.B_zero_time] = Some (1, 0) ∧
    edge_count_into (make_frame Scenario.B_zero_time) S2 = 1.
Proof.
  destruct (zero_time_callee_is_root Scenario.zero_time_call
              Scenario.B_zero_time)
    as (S1 & C & S2 & _ & H3 & _ & Hroot & Hedges).
  - apply convertibleb_Convertible. reflexivity.
  - right. left.
  - by vm_compute.
  - vm_compute. by repeat constructor.
  - exists S2. split; [exact H3|]. split.
    + destruct Hroot as [_ Hentry]; [by vm_compute|].
      rewrite Hentry; [by vm_compute|].
      apply (bool_decide_unpack _). vm_compute. exact I.
    + rewrite Hedges. by vm_compute.
Defined.

(** * Further properties of the converter *)

(** ** Which exception is raised *)

Lemma first_raise_app {A} (l1 l2 : list (result A)) :
  first_raise (l1 ++ l2) =
  match first_raise l1 with
  | Some e => Some e
  | None => first_raise l2
  end.
Proof. induction l1 as [|[a|e] l1 IH]; simpl; by rewrite ?IH. Qed.

Lemma for_each_agrees {A St B} (body : St → A → result St)
    (conv : A → list (result B)) (l : list A) (st : St) :
  (∀ s x, agrees (body s x) (conv x)) →
  agrees (for_each body l st) (l ≫= conv).
Proof.
  intros Hbody. revert st. induction l as [|x l IH]; intros st; [done|].
  rewrite for_each_cons, bind_cons. unfold agrees in *.
  rewrite first_raise_app. specialize (Hbody st x).
  destruct (body st x) as [s|e]; simpl; rewrite Hbody; [apply IH | done].
Qed.

Lemma first_pass_agrees stats st :
  agrees (first_pass stats st) ((λ e, self_time_ns e.2) <$> edges stats).
Proof.
  assert (((λ e : YFuncStat * YChildFuncStat, self_time_ns e.2) <$> edges stats)
          = stats ≫= (λ F, self_time_ns <$> out_edges F)) as ->.
  { induction stats as [|F stats IH]; [done|].
    rewrite edges_cons, fmap_app, bind_cons, IH. f_equal.
    by rewrite <- list_fmap_compose. }
  apply for_each_agrees. intros s F. unfold caller_body, out_edges.
  destruct (children F) as [cs|]; simpl; [|done].
  assert (self_time_ns <$> cs = cs ≫= (λ E, [self_time_ns E])) as ->.
  { induction cs as [|E cs IH]; [done|]. by rewrite fmap_cons, bind_cons, IH. }
  apply for_each_agrees. intros [S C] E. unfold edge_body.
  by destruct (self_time_ns E).
Qed.

Lemma second_pass_agrees (C : Coverage) (stats : list YFuncStat)
    (S : Samples) :
  agrees (second_pass C stats S) (self_time_ns <$> stats).
Proof.
  assert (self_time_ns <$> stats = stats ≫= (λ F, [self_time_ns F])) as ->.
  { induction stats as [|F l IH]; [done|]. by rewrite fmap_cons, bind_cons, IH. }
  apply for_each_agrees. intros s F. unfold root_body.
  destruct (self_time_ns F) as [x|e]; simpl; [|done]. by case_match.
Qed.

(** X1. The conversion raises exactly the exception of the first
    float-to-integer conversion that raises, the edges of all records
    being converted first, in input order, and the records after them;
    it returns a table exactly when no conversion raises. *)
Theorem conversion_raises_first_failure stats :
  match sample_table stats with
  | Ok _ => first_raise (conversions stats) = None
  | Raise e => first_raise (conversions stats) = Some e
  end.
Proof.
  unfold conversions. rewrite first_raise_app. unfold sample_table.
  pose proof (first_pass_agrees stats (∅, ∅)) as H1. unfold agrees in H1.
  destruct (first_pass stats (∅, ∅)) as [[S C]|e]; simpl; rewrite H1; [|done].
  apply second_pass_agrees.
Qed.

(** ** Floats: signs and special values *)

Lemma shr_1_nonneg mrs : 0 ≤ shr_m mrs → 0 ≤ shr_m (shr_1 mrs).
Proof. destruct mrs as [[|[p|p|]|[p|p|]] r s]; simpl; lia. Qed.

Lemma iter_shr_1_nonneg p mrs :
  0 ≤ shr_m mrs → 0 ≤ shr_m (SpecFloat.iter_pos shr_1 p mrs).
Proof.
  revert mrs. induction p as [p IH|p IH|]; intros mrs Hm; simpl.
  - by apply IH, IH, shr_1_nonneg.
  - by apply IH, IH.
  - by apply shr_1_nonneg.
Qed.

Lemma shr_fexp_nonneg m e l :
  0 ≤ m → 0 ≤ shr_m (shr_fexp PyFloat.prec PyFloat.emax m e l).1.
Proof.
  intros Hm. unfold shr_fexp, shr.
  assert (0 ≤ shr_m (shr_record_of_loc m l)) as Hrec
    by by destruct l as [|[]].
  destruct (_ - e); simpl; [done| |done]. by apply iter_shr_1_nonneg.
Qed.

Lemma round_nearest_even_nonneg m l : 0 ≤ m → 0 ≤ round_nearest_even m l.
Proof.
  intros Hm. destruct l as [|[]]; simpl; try done; [|lia].
  destruct (Z.even m); lia.
Qed.

(** Rounding a non-negative mantissa keeps the sign and gives no NaN. *)
Lemma binary_round_aux_sign sx mx ex lx :
  0 ≤ mx →
  sign_bit (binary_round_aux PyFloat.prec PyFloat.emax sx mx ex lx) = Some sx.
Proof.
  intros Hm. unfold binary_round_aux.
  pose proof (shr_fexp_nonneg mx ex lx Hm) as H1.
  destruct (shr_fexp _ _ mx ex lx) as [mrs' e']. simpl in H1.
  pose proof (shr_fexp_nonneg _ e' loc_Exact
    (round_nearest_even_nonneg _ (loc_of_shr_record mrs') H1)) as H2.
  destruct (shr_fexp _ _ _ e' loc_Exact) as [mrs'' e'']. simpl in H2.
  destruct (shr_m mrs'') as [|m|m]; [done| |lia].
  by destruct (e'' <=? _).
Qed.

Lemma binary_normalize_not_nan m e :
  sign_bit (binary_normalize PyFloat.prec PyFloat.emax m e false) ≠ None.
Proof.
  destruct m as [|m|m]; simpl; [done|..]; unfold binary_round;
    destruct (shl_align _ _ _) as [mz ez];
    by rewrite binary_round_aux_sign.
Qed.

(** Multiplying by [1e9] keeps the sign of a float that is not a NaN. *)
Lemma mul_1e9_sign d s :
  sign_bit d = Some s → sign_bit (PyFloat.mul d PyFloat.f1e9) = Some s.
Proof.
  destruct d as [s'|s'| |s' m e]; simpl; intros [= <-].
  - by destruct s'.
  - by destruct s'.
  - rewrite binary_round_aux_sign by done. by destruct s'.
Qed.

Lemma to_int_sign d s x :
  sign_bit d = Some s → PyFloat.to_int d = Ok x →
  if s then x ≤ 0 else 0 ≤ x.
Proof.
  destruct d as [s'|s'| |s' m e]; simpl; intros [= <-]; try done.
  - intros [= <-]. by destruct s'.
  - intros [= <-]. pose proof (Z.shiftl_nonneg (Z.pos m) e) as Hnn.
    destruct s'; lia.
Qed.

(** X2. With [d] the float difference [ttot - tsub] of a record or an
    edge: when [d] has its sign bit set, the converted nanoseconds are at
    most 0, so the clamp makes the self time 0; when the sign bit is
    clear, the converted nanoseconds are non-negative, so the clamp
    changes nothing. *)
Theorem clamp_follows_sign_of_difference {A} `{StatLike A} (s : A) b x :
  sign_bit (PyFloat.sub (ttot s) (tsub s)) = Some b →
  self_time_ns s = Ok x →
  (if b then x ≤ 0 else 0 ≤ x) ∧
  self_ns s = (if b then 0 else x).
Proof.
  intros Hb Hx. pose proof (mul_1e9_sign _ _ Hb) as Hmul.
  pose proof (to_int_sign _ _ _ Hmul Hx) as Hsign.
  split; [done|]. rewrite (self_ns_Ok _ _ Hx). destruct b; lia.
Qed.

Lemma clamp_follows_sign_of_difference_witness :
  self_ns (Scenario.child "B" 30 Scenario.f0_1 Scenario.f0_7 1) = 0.
Proof.
  apply (clamp_follows_sign_of_difference
           (Scenario.child "B" 30 Scenario.f0_1 Scenario.f0_7 1)
           true (-600000000)); reflexivity.
Defined.

(** X3. The exception of one conversion [int((s.ttot - s.tsub) * 1e9)],
    by the special values of the two times: a NaN time raises
    [ValueError]; two infinities of the same sign raise [ValueError] and of
    opposite signs [OverflowError]; one infinity raises [OverflowError];
    two finite times never raise [ValueError]. *)
Theorem self_time_exceptions {A} `{StatLike A} (s : A) :
  match ttot s, tsub s with
  | S754_nan, _ | _, S754_nan => self_time_ns s = Raise ValueError
  | S754_infinity sx, S754_infinity sy =>
      self_time_ns s =
      Raise (if Bool.eqb sx sy then ValueError else OverflowError)
  | S754_infinity _, _ | _, S754_infinity _ =>
      self_time_ns s = Raise OverflowError
  | _, _ => self_time_ns s ≠ Raise ValueError
  end.
Proof.
  unfold self_time_ns.
  assert (∀ d, sign_bit d ≠ None →
    PyFloat.to_int (PyFloat.mul d PyFloat.f1e9) ≠ Raise ValueError) as Hfin.
  { intros d Hd. destruct (sign_bit d) as [b|] eqn:Hb; [|done].
    apply mul_1e9_sign in Hb.
    by destruct (PyFloat.mul d PyFloat.f1e9). }
  destruct (ttot s) as [sx|sx| |sx mx ex], (tsub s) as [sy|sy| |sy my ey];
    try done; try (by destruct sx, sy);
    apply Hfin; simpl; try done; try (by destruct sx, sy).
  apply binary_normalize_not_nan.
Qed.

(** ** The keys of the table *)

Lemma accumulate_lookup_other (cs : list (Trace * (Z * Z))) (S : Samples)
    (t : Trace) :
  (∀ c, c ∈ cs → c.1 ≠ t) → accumulate cs S !! t = S !! t.
Proof.
  revert S. induction cs as [|c cs IH]; intros S Hcs; [done|].
  change (accumulate (c :: cs) S)
    with (accumulate cs (add_sample c.1 c.2.1 c.2.2 S)).
  rewrite IH by (intros c' Hc'; apply Hcs; by right).
  rewrite add_sample_lookup, decide_False; [done|]. apply Hcs. left.
Qed.

(** X4. On a convertible input the traces of the table are exactly the
    two-frame traces [(Frame(E), Frame(F))] of the edges [E] of the records
    [F], and the one-frame traces [(Frame(F),)] of the records for which
    the root pass decides to emit; no other trace, in particular no empty
    and no deeper one, is a key. *)
Theorem table_keys stats :
  Convertible stats →
  ∃ S : Samples, sample_table stats = Ok S ∧
    ∀ t, is_Some (S !! t) ↔
      (∃ F E, F ∈ stats ∧ E ∈ out_edges F ∧
              t = [make_frame E; make_frame F]) ∨
      (∃ F, F ∈ stats ∧ t = [make_frame F] ∧
            root_emits (self_ns F) (covered_total (stat_key F) stats)
              (ncall F)).
Proof.
  intros Hc. eexists. split; [by apply sample_table_accumulate|].
  intros t. rewrite accumulate_is_Some, lookup_empty. unfold contributions.
  split.
  - intros [[? [=]]|(c & Hc' & <-)].
    apply elem_of_app in Hc' as [Hc'|Hc'].
    + apply list_elem_of_fmap in Hc' as ([F E] & -> & He).
      apply elem_of_edges in He as [? ?]. left. by exists F, E.
    + apply list_elem_of_omap in Hc' as (F & HF & Hc'). right. exists F.
      unfold root_contrib, covered_of in Hc'.
      rewrite coverage_after_entry in Hc'.
      case_decide; [|done]. by injection Hc' as <-.
  - intros [(F & E & HF & HE & ->)|(F & HF & -> & He)]; right.
    + exists (edge_contrib (F, E)). split; [|done].
      apply elem_of_app. left. apply list_elem_of_fmap_2.
      by apply elem_of_edges.
    + exists ([make_frame F],
              (root_count (covered_total (stat_key F) stats) F,
               self_ns F - covered_total (stat_key F) stats)).
      split; [|done].
      apply elem_of_app. right. apply list_elem_of_omap. exists F.
      split; [done|]. unfold root_contrib, covered_of.
      rewrite coverage_after_entry. by rewrite decide_True.
Qed.

Lemma table_keys_witness :
  ∃ S : Samples, sample_table Scenario.remainder_call = Ok S ∧
    ∀ t, is_Some (S !! t) → length t = 1%nat ∨ length t = 2%nat.
Proof.
  destruct (table_keys Scenario.remainder_call) as (S & HS & Hkeys).
  - apply convertibleb_Convertible. reflexivity.
  - exists S. split; [exact HS|]. intros t Ht.
    apply Hkeys in Ht as [(F & E & _ & _ & ->)|(F & _ & -> & _)];
      [by right | by left].
Defined.

(** X5. The two passes keep apart: after the first pass the table has
    two-frame traces only, the second pass leaves every entry but the
    one-frame ones as the first pass made it, and the coverage map has an
    entry exactly for the identities that occur as a callee of some
    edge (a record that is never a callee is read with the default 0). *)
Theorem passes_keep_apart stats :
  Convertible stats →
  ∃ (S1 : Samples) (C : Coverage) (S2 : Samples),
    first_pass stats (∅, ∅) = Ok (S1, C) ∧
    second_pass C stats S1 = Ok S2 ∧
    (∀ t, length t ≠ 2%nat → S1 !! t = None) ∧
    (∀ t, length t ≠ 1%nat → S2 !! t = S1 !! t) ∧
    (∀ k, is_Some (C !! k) ↔
          ∃ F E, F ∈ stats ∧ E ∈ out_edges F ∧ stat_key E = k).
Proof.
  intros Hc. destruct (passes_run stats Hc) as (H1 & H2 & _).
  eexists _, _, _. split; [exact H1|]. split; [exact H2|].
  split; [|split].
  - intros t Ht. rewrite accumulate_lookup_other; [done|].
    intros c Hin <-. apply list_elem_of_fmap in Hin as (e & -> & _). done.
  - intros t Ht. unfold contributions. rewrite accumulate_app.
    apply accumulate_lookup_other. intros c Hin <-.
    apply list_elem_of_omap in Hin as (F & _ & Hin).
    apply root_contrib_trace in Hin. by rewrite Hin in Ht.
  - intros k. rewrite coverage_after_is_Some. split.
    + intros ([F E] & He & Hk). apply elem_of_edges in He as [? ?].
      by exists F, E.
    + intros (F & E & HF & HE & Hk). exists (F, E).
      split; [by apply elem_of_edges | done].
Qed.

Lemma passes_keep_apart_witness :
  ∃ (S1 : Samples) (C : Coverage),
    first_pass Scenario.remainder_call (∅, ∅) = Ok (S1, C) ∧
    S1 !! [make_frame Scenario.B_remainder] = None.
Proof.
  destruct (passes_keep_apart Scenario.remainder_call)
    as (S1 & C & S2 & H1 & _ & Hedge & _ & Hcov).
  - apply convertibleb_Convertible. reflexivity.
  - exists S1, C. split; [exact H1|]. by apply Hedge.
Defined.

(** ** The order of the records does not matter *)

Lemma total_Permutation {X} (f : X → Z) l l' :
  l ≡ₚ l' → total f l = total f l'.
Proof.
  induction 1 as [|x l l' _ IH|x y l|l l' l'' _ IH1 _ IH2];
    rewrite ?total_cons; lia.
Qed.

Lemma accumulate_Permutation (cs cs' : list (Trace * (Z * Z))) :
  cs ≡ₚ cs' → accumulate cs ∅ = accumulate cs' ∅.
Proof.
  intros Hperm. apply map_eq. intros t. rewrite !accumulate_lookup.
  assert (filter (λ c, c.1 = t) cs ≡ₚ filter (λ c, c.1 = t) cs') as Hf
    by by rewrite Hperm.
  destruct (filter (λ c, c.1 = t) cs) as [|c l] eqn:Hl.
  - apply Permutation_nil_l in Hf. by rewrite <- Hf.
  - destruct (filter (λ c, c.1 = t) cs') as [|c' l'].
    + by apply Permutation_nil_r in Hf.
    + cbv zeta. by rewrite !(total_Permutation _ _ _ Hf).
Qed.

Lemma edges_Permutation stats stats' :
  stats ≡ₚ stats' → edges stats ≡ₚ edges stats'.
Proof. intros Hperm. unfold edges. by rewrite Hperm. Qed.

Lemma coverage_after_Permutation stats stats' :
  stats ≡ₚ stats' → coverage_after stats = coverage_after stats'.
Proof.
  intros Hperm. apply map_eq. intros k. rewrite !coverage_after_lookup.
  assert (edges_into k stats ≡ₚ edges_into k stats') as Hf.
  { unfold edges_into. by rewrite (edges_Permutation _ _ Hperm). }
  destruct (edges_into k stats) as [|e l].
  - apply Permutation_nil_l in Hf. by rewrite <- Hf.
  - destruct (edges_into k stats') as [|e' l'].
    + by apply Permutation_nil_r in Hf.
    + cbv zeta. by rewrite (total_Permutation _ _ _ Hf).
Qed.

(** X6. The table does not depend on the order of the input records: two
    convertible inputs that are permutations of each other convert to the
    same table. *)
Theorem order_of_records_irrelevant stats stats' :
  Convertible stats → stats ≡ₚ stats' →
  ∃ S : Samples, sample_table stats = Ok S ∧ sample_table stats' = Ok S.
Proof.
  intros Hc Hperm.
  assert (Convertible stats') as Hc'.
  { unfold Convertible in *. by rewrite <- Hperm. }
  eexists. split; [by apply sample_table_accumulate|].
  rewrite sample_table_accumulate by done. f_equal.
  apply accumulate_Permutation. unfold contributions.
  rewrite (coverage_after_Permutation _ _ Hperm).
  by rewrite (edges_Permutation _ _ Hperm), Hperm.
Qed.

Lemma order_of_records_irrelevant_witness :
  ∃ S : Samples,
    sample_table Scenario.zero_time_call = Ok S ∧
    sample_table [Scenario.B_zero_time; Scenario.A_zero_time] = Ok S.
Proof.
  apply (order_of_records_irrelevant Scenario.zero_time_call).
  - apply convertibleb_Convertible. reflexivity.
  - apply perm_swap.
Defined.

(** ** Totals of the table *)

Lemma total_add {X} (f g : X → Z) l :
  total (λ x, f x + g x) l = total f l + total g l.
Proof. induction l as [|x l IH]; [done|]. rewrite !total_cons, IH. lia. Qed.

Lemma total_le {X} (f g : X → Z) l :
  (∀ x, f x ≤ g x) → total f l ≤ total g l.
Proof.
  intros Hfg. induction l as [|x l IH]; [done|].
  rewrite !total_cons. specialize (Hfg x). lia.
Qed.

Lemma total_omap {X Y} (g : X → option Y) (h : Y → Z) (l : list X) :
  total h (omap g l) = total (λ x, from_option h 0 (g x)) l.
Proof.
  induction l as [|x l IH]; [done|].
  rewrite total_cons. csimpl. destruct (g x) as [y|]; simpl;
    rewrite ?total_cons, IH; lia.
Qed.

(** A sum over items that each belong to one keyed group is the sum of
    the sums of the groups. *)
Lemma total_by_key {X Y K} `{EqDecision K} (kx : X → K) (ky : Y → K)
    (f : X → Z) (xs : list X) (ys : list Y) :
  NoDup (ky <$> ys) →
  (∀ x, x ∈ xs → ∃ y, y ∈ ys ∧ ky y = kx x) →
  total f xs = total (λ y, total f (filter (λ x, kx x = ky y) xs)) ys.
Proof.
  intros Hnd. induction xs as [|x xs IH]; intros Hin.
  - symmetry. by apply total_zero, Forall_forall.
  - rewrite total_cons, IH by (intros x' Hx'; apply Hin; by right).
    destruct (Hin x) as (y0 & Hy0 & Hk); [left|].
    transitivity (total (λ y, (if decide (ky y = ky y0) then f x else 0)
      + total f (filter (λ x', kx x' = ky y) xs)) ys).
    + rewrite total_add, <- (total_filter (λ _, f x)).
      rewrite (filter_key_unique ky) by done.
      rewrite total_cons. simpl. rewrite Z.add_0_r. done.
    + apply total_ext. intros y _. rewrite filter_cons, <- Hk.
      destruct (decide (ky y0 = ky y)) as [Heq|Hne].
      * rewrite decide_True by done. by rewrite total_cons.
      * rewrite decide_False by (intros ?; by apply Hne). lia.
Qed.

Lemma value_additive : Additive (λ _ e, e.2).
Proof. by intros t ????. Qed.

Lemma count_additive : Additive (λ _ e, e.1).
Proof. by intros t ????. Qed.

(** X7. When identities are pairwise distinct and every callee of an edge
    is itself a record of the input, the values of all samples sum to
    the sum over the records of the larger of the record's clamped self
    time and its coverage; so no self time is lost, and the total is the
    sum of the self times when no record is over-covered. *)
Theorem total_value_of_table stats :
  Convertible stats →
  NoDup (stat_key <$> stats) →
  Forall (λ e, stat_key e.2 ∈ stat_key <$> stats) (edges stats) →
  ∃ S : Samples, sample_table stats = Ok S ∧
    value_total S =
      total (λ F, Z.max (self_ns F) (covered_total (stat_key F) stats)) stats
    ∧ total self_ns stats ≤ value_total S.
Proof.
  intros Hc Hnd Hclosed. eexists. split; [by apply sample_table_accumulate|].
  assert (value_total (accumulate (contributions stats) ∅) =
    total (λ F, Z.max (self_ns F) (covered_total (stat_key F) stats)) stats)
    as Hval.
  { unfold value_total.
    rewrite table_total_accumulate, table_total_empty by apply value_additive.
    unfold contributions. rewrite total_app, total_fmap, total_omap.
    rewrite (total_by_key (λ e, stat_key e.2) stat_key _ (edges stats) stats Hnd).
    - rewrite Z.add_0_l, <- total_add. apply total_ext. intros F _.
      change (total _ (filter _ (edges stats)))
        with (covered_total (stat_key F) stats).
      unfold root_contrib, covered_of. rewrite coverage_after_entry.
      pose proof (self_ns_nonneg F).
      case_decide as He; unfold root_emits in He; simpl; lia.
    - intros e He. rewrite Forall_forall in Hclosed.
      apply Hclosed, list_elem_of_fmap in He as (G & HG & ?). by exists G. }
  split; [done|]. rewrite Hval. apply total_le. intros F. lia.
Qed.

Lemma total_value_of_table_witness :
  ∃ S : Samples, sample_table Scenario.remainder_call = Ok S ∧
    value_total S = 12000000.
Proof.
  destruct (total_value_of_table Scenario.remainder_call)
    as (S & HS & Hval & _).
  - apply convertibleb_Convertible. reflexivity.
  - apply (bool_decide_unpack _). vm_compute. exact I.
  - apply (bool_decide_unpack _). vm_compute. exact I.
  - exists S. split; [exact HS|]. rewrite Hval. by vm_compute.
Defined.

(** X8. The counts of all samples sum to the invocation counts of all
    edges plus the invocation counts of the records that have coverage 0
    and a positive clamped self time or a positive invocation count; a
    record with non-zero coverage adds nothing to the counts. *)
Theorem total_count_of_table stats :
  Convertible stats →
  ∃ S : Samples, sample_table stats = Ok S ∧
    count_total S =
      total (λ e, ncall e.2) (edges stats)
      + total ncall
          (filter (λ F, covered_total (stat_key F) stats = 0 ∧
                        (self_ns F > 0 ∨ ncall F > 0)) stats).
Proof.
  intros Hc. eexists. split; [by apply sample_table_accumulate|].
  unfold count_total.
  rewrite table_total_accumulate, table_total_empty by apply count_additive.
  unfold contributions. rewrite total_app, total_fmap, total_omap.
  rewrite Z.add_0_l. f_equal. rewrite total_filter.
  apply total_ext. intros F _.
  unfold root_contrib, root_count, covered_of. rewrite coverage_after_entry.
  repeat case_decide; unfold root_emits in *; simpl; try done; lia.
Qed.

Lemma total_count_of_table_witness :
  ∃ S : Samples, sample_table Scenario.remainder_call = Ok S ∧
    count_total S = 4.
Proof.
  destruct (total_count_of_table Scenario.remainder_call) as (S & HS & Hc).
  - apply convertibleb_Convertible. reflexivity.
  - exists S. split; [exact HS|]. rewrite Hc. by vm_compute.
Defined.

(** * [profile] *)

Lemma well_locked_spec l :
  well_locked l = true →
  ∃ middle,
    l = {| ev_call := lock_acquire; ev_ok := true |} :: middle
          ++ [{| ev_call := lock_release; ev_ok := true |}] ∧
    Forall (λ ev, ev_call ev ≠ lock_acquire ∧ ev_call ev ≠ lock_release)
      middle.
Proof.
  destruct l as [|[[] []] rest]; try done. simpl.
  destruct (reverse rest) as [|[[] []] middle] eqn:Hrev; try done.
  intros Hall. exists (reverse middle). split.
  - f_equal. rewrite <- (reverse_involutive rest), Hrev. by rewrite reverse_cons.
  - apply Forall_reverse, Forall_forall. intros ev Hev.
    rewrite forallb_forall in Hall. apply list_elem_of_In, Hall in Hev.
    by destruct (ev_call ev).
Qed.

Lemma stopped_after_start_spec l l1 l2 :
  stopped_after_start l = true →
  l = l1 ++ {| ev_call := yappi_start; ev_ok := true |} :: l2 →
  ∃ ok, {| ev_call := yappi_stop; ev_ok := ok |} ∈ l2.
Proof.
  revert l. induction l1 as [|ev l1 IH]; intros l Hl ->; simpl in Hl.
  - apply andb_prop in Hl as [Hex _]. apply existsb_exists in Hex as (ev & Hin & Hev).
    destruct ev as [c ok]. exists ok. apply list_elem_of_In.
    unfold is_stop in Hev. simpl in Hev. by destruct c.
  - eapply IH; [|reflexivity].
    destruct ev as [[] []]; try done. by apply andb_prop in Hl as [_ ?].
Qed.

Section ProfileFacts.
Context {W E B Out : Type} `{Builder B Out}.
Variable extern : Call → W → W * option E.
Variable get_func_stats : W → W * (E + list YFuncStat).
Variable py_raise : PyExc → E.

Local Ltac run_profile :=
  unfold profile, with_lock, try_finally, call, call_get_func_stats, lift;
  unfold mbind, run_bind; simpl;
  repeat (first
    [ match goal with
      | |- context [extern ?c ?w] =>
          destruct (extern c w) as [? [?|]]; simpl
      end
    | match goal with
      | |- context [get_func_stats ?w] =>
          destruct (get_func_stats w) as [? [?|?]]; simpl
      end
    | match goal with
      | |- context [float_of_int ?d] =>
          destruct (float_of_int d) as [?|?]; simpl
      end
    | match goal with
      | |- context [_convert_to_pprof ?s ?st ?d] =>
          destruct (_convert_to_pprof s st d) as [?|?]; simpl
      end ]);
  rewrite <- ?app_assoc; simpl.

(** The events a run of [profile] appends to the log, with the outcome. *)
Lemma profile_log self duration_ns w log0 :
  ∃ l,
    (profile extern get_func_stats py_raise self duration_ns (w, log0)).1.2
      = log0 ++ l ∧
    well_locked l = true ∧ stopped_after_start l = true.
Proof. run_profile; eexists; (split; [reflexivity|]); by split. Qed.

(** X9. In every run of [profile], whatever the calls to yappi and
    [time.sleep] do: the lock is acquired first and released last, also
    when a call or the conversion raises, and it is not touched in
    between. *)
Theorem profile_releases_lock self duration_ns w log0 :
  ∃ middle,
    (profile extern get_func_stats py_raise self duration_ns (w, log0)).1.2
      = log0
          ++ {| ev_call := lock_acquire; ev_ok := true |} :: middle
          ++ [{| ev_call := lock_release; ev_ok := true |}] ∧
    Forall (λ ev, ev_call ev ≠ lock_acquire ∧ ev_call ev ≠ lock_release)
      middle.
Proof.
  destruct (profile_log self duration_ns w log0) as (l & -> & Hlock & _).
  apply well_locked_spec in Hlock as (middle & -> & Hmid). by exists middle.
Qed.

(** X10. In every run of [profile], once [yappi.start()] has returned,
    [yappi.stop()] is called again before the run ends, whether the sleep
    returns or raises and also when the duration cannot be converted to
    seconds. *)
Theorem profile_stops_after_start self duration_ns w log0 l1 l2 :
  (profile extern get_func_stats py_raise self duration_ns (w, log0)).1.2
    = log0 ++ l1 ++ {| ev_call := yappi_start; ev_ok := true |} :: l2 →
  ∃ ok, {| ev_call := yappi_stop; ev_ok := ok |} ∈ l2.
Proof.
  destruct (profile_log self duration_ns w log0) as (l & -> & _ & Hstop).
  intros Hl%app_inv_head. by eapply stopped_after_start_spec.
Qed.

(** X11. A run of [profile] that returns has made exactly the calls of
    the source in their order, each returning normally: acquire, stop,
    clear_stats, set_clock_type with the configured clock, start, sleep of
    [duration_ns / 1e9] seconds, stop, get_func_stats, release; and what
    it returns is the conversion of the statistics that
    [yappi.get_func_stats()] returned. So when any call raises, or the
    conversion does, [profile] raises. *)
Theorem profile_returns self duration_ns w log0 w' log out :
  profile extern get_func_stats py_raise self duration_ns (w, log0)
    = ((w', log), inr out) →
  ∃ x w0 stats,
    float_of_int duration_ns = Ok x ∧
    log = log0
          ++ full_log (_clock_type self) (float_div x PyFloat.f1e9) ∧
    get_func_stats w0 = (w', inr stats) ∧
    _convert_to_pprof self stats duration_ns = Ok out.
Proof.
  unfold profile, with_lock, try_finally, call, call_get_func_stats, lift.
  unfold mbind, run_bind. simpl.
  destruct (extern yappi_stop w) as [w1 [?|]]; simpl; [by intros [=]|].
  destruct (extern yappi_clear_stats w1) as [w2 [?|]]; simpl;
    [by intros [=]|].
  destruct (extern _ w2) as [w3 [?|]]; simpl; [by intros [=]|].
  destruct (extern yappi_start w3) as [w4 [?|]]; simpl; [by intros [=]|].
  destruct (float_of_int duration_ns) as [x|?]; simpl.
  - destruct (extern _ w4) as [w5 [?|]]; simpl;
      destruct (extern yappi_stop w5) as [w6 [?|]]; simpl;
      try (by intros [=]);
      destruct (get_func_stats w6) as [w7 [?|stats]] eqn:Hstats; simpl;
      try (by intros [=]).
    destruct (_convert_to_pprof self stats duration_ns) as [o|?] eqn:Hconv;
      simpl; [|by intros [=]].
    intros [= <- <- <-]. exists x, w6, stats.
    repeat split; try done. by rewrite <- !app_assoc.
  - destruct (extern yappi_stop w4) as [w6 [?|]]; simpl;
      try (by intros [=]);
      destruct (get_func_stats w6) as [w7 [?|stats]]; simpl;
      by intros [=].
Qed.
End ProfileFacts.

Lemma profile_stops_after_start_witness :
  ∃ ok, {| ev_call := yappi_stop; ev_ok := ok |}
        ∈ [ {| ev_call := time_sleep
                 (S754_finite false 6755399441055744 (-52));
               ev_ok := false |};
            {| ev_call := yappi_stop; ev_ok := true |};
            {| ev_call := yappi_get_func_stats; ev_ok := true |};
            {| ev_call := lock_release; ev_ok := true |} ].
Proof.
  apply (profile_stops_after_start (B := option PopulateCall)
           (λ c w, (w, match c with
                       | time_sleep _ => Some ValueError
                       | _ => None
                       end))
           (λ w : (), (w, inr []))
           id {| _clock_type := "cpu" |} 1500000000 () []
           [ {| ev_call := lock_acquire; ev_ok := true |};
             {| ev_call := yappi_stop; ev_ok := true |};
             {| ev_call := yappi_clear_stats; ev_ok := true |};
             {| ev_call := yappi_set_clock_type "cpu"; ev_ok := true |} ]).
  reflexivity.
Defined.

Lemma profile_returns_witness :
  ∃ stats : list YFuncStat,
    _convert_to_pprof {| _clock_type := "cpu" |} stats 1500000000
    = Ok (Some {| call_samples := ∅; call_sample_type := "CPU";
                  call_sample_unit := "count"; call_period := 1;
                  call_duration_ns := 1500000000 |}).
Proof.
  destruct (profile_returns (E := PyExc) (λ c w, (w, None))
              (λ w : (), (w, inr [])) id
              {| _clock_type := "cpu" |} 1500000000 () [] ()
              (full_log "cpu" (S754_finite false 6755399441055744 (-52)))
              (Some {| call_samples := ∅; call_sample_type := "CPU";
                       call_sample_unit := "count"; call_period := 1;
                       call_duration_ns := 1500000000 |}))
    as (x & w0 & stats & _ & _ & _ & Hconv).
  - reflexivity.
  - by exists stats.
Defined.
